(** * Airline ticket booking: the waitlist binomial heap and the per-flight
    seat ledger.

    Shallow embedding of [src/heap/BinomialHeap.cpp],
    [src/booking/Flight.cpp] and the state changes of
    [src/booking/BookingSystem.cpp].

    Conventions of the embedding.
    - [PriorityType] and [PassengerIdType] are C++ [int]; they are only
      stored and compared, never computed with, and are modelled as [Z].
    - A [BinomialHeapNode*] is a value of the inductive type
      [BinomialHeapNode]: either [nullptr] or a node carrying its fields and
      the two nodes its [child] and [sibling] pointers lead to. No node is
      ever reachable from two places, so the pointer graph is a tree. The
      [parent] field is written by [link] and [extractMin] and never read;
      it is left out.
    - [degree] starts at 0 and is only ever incremented; it is a [nat].
    - [std::list<BinomialHeapNode*> roots] is a [list BinomialHeapNode].
    - A method that mutates the heap returns the new root list; a method
      that can throw returns a [result].
    - Console output is not modelled. *)

From Stdlib Require Import ZArith Lia.
From Equations Require Import Equations.
From Equations.Prop Require Import Logic.
From stdpp Require Import base list strings sorting gmap.

Local Open Scope Z_scope.

(** ** common/Types.h *)

Definition PriorityType := Z.
Definition PassengerIdType := Z.

(** The range of a C++ [int]. *)
Definition INT_MIN : Z := -2147483648.
Definition INT_MAX : Z := 2147483647.

(** ** heap/BinomialHeapNode.h *)

Inductive BinomialHeapNode : Type :=
| nullptr : BinomialHeapNode
| Node (priority : PriorityType) (passengerId : PassengerIdType)
       (degree : nat) (child sibling : BinomialHeapNode) : BinomialHeapNode.

(** The constructor [BinomialHeapNode(p, data)]. *)
Definition new_node (p : PriorityType) (data : PassengerIdType) : BinomialHeapNode :=
  Node p data 0 nullptr nullptr.

(** Field reads [n->priority], [n->passengerId], [n->degree], [n->child],
    [n->sibling]. The program never dereferences a null pointer; the value
    given at [nullptr] is a placeholder. *)
Definition priority (n : BinomialHeapNode) : PriorityType :=
  match n with nullptr => 0 | Node p _ _ _ _ => p end.

Definition passengerId (n : BinomialHeapNode) : PassengerIdType :=
  match n with nullptr => 0 | Node _ i _ _ _ => i end.

Definition degree (n : BinomialHeapNode) : nat :=
  match n with nullptr => 0%nat | Node _ _ d _ _ => d end.

Definition child (n : BinomialHeapNode) : BinomialHeapNode :=
  match n with nullptr => nullptr | Node _ _ _ c _ => c end.

Definition sibling (n : BinomialHeapNode) : BinomialHeapNode :=
  match n with nullptr => nullptr | Node _ _ _ _ s => s end.

Definition is_null (n : BinomialHeapNode) : bool :=
  match n with nullptr => true | Node _ _ _ _ _ => false end.

(** Outcome of a method that may throw [std::runtime_error]. *)
Inductive result (A : Type) : Type :=
| Returned (a : A)
| Thrown (what : string).
Arguments Returned {A} a.
Arguments Thrown {A} what.

Definition is_thrown {A} (r : result A) : bool :=
  match r with Returned _ => false | Thrown _ => true end.

(** ** heap/BinomialHeap.cpp *)

Module BinomialHeap.

(** The single data member [roots]. *)
Abbreviation t := (list BinomialHeapNode) (only parsing).

(** [BinomialHeap::BinomialHeap()]: the empty heap. *)
Definition empty : t := [].

(** [link(y, z)]: [y->sibling = z->child; z->child = y; z->degree++].
    Returns the updated [z], which now owns [y]. *)
Definition link (y z : BinomialHeapNode) : BinomialHeapNode :=
  match y, z with
  | Node py iy dy cy _, Node pz iz dz cz sz =>
      Node pz iz (S dz) (Node py iy dy cy cz) sz
  | _, _ => z
  end.

(** [mergeRootLists]: linear merge of the two root lists by [degree], ties
    taken from [this] first; the two trailing loops append what is left. *)
Fixpoint mergeRootLists (roots other : t) : t :=
  match roots with
  | [] => other
  | r1 :: roots' =>
      (fix merge_other (other : t) : t :=
         match other with
         | [] => r1 :: roots'
         | r2 :: other' =>
             if (degree r1 <=? degree r2)%nat
             then r1 :: mergeRootLists roots' (r2 :: other')
             else r2 :: merge_other other'
         end) other
  end.

(** The nodes pushed by the inner loop of [getSize]:
    [child; child->sibling; child->sibling->sibling; ...]. *)
Fixpoint sibling_chain (c : BinomialHeapNode) : list BinomialHeapNode :=
  match c with
  | nullptr => []
  | Node _ _ _ _ s => c :: sibling_chain s
  end.

(** Number of nodes reachable from a pointer through [child] and [sibling]
    links; used as termination measure of the traversal below. *)
Fixpoint node_count (n : BinomialHeapNode) : nat :=
  match n with
  | nullptr => 0
  | Node _ _ _ c s => S (node_count c + node_count s)
  end.

Definition queue_weight (q : list BinomialHeapNode) : nat :=
  foldr (fun n acc => S (node_count (child n)) + acc)%nat 0%nat q.

Lemma queue_weight_cons n q :
  queue_weight (n :: q) = S (node_count (child n) + queue_weight q).
Proof. reflexivity. Qed.

Lemma queue_weight_app q1 q2 :
  queue_weight (q1 ++ q2) = (queue_weight q1 + queue_weight q2)%nat.
Proof.
  induction q1 as [|n q1 IH]; [reflexivity|].
  rewrite <- app_comm_cons, !queue_weight_cons, IH. lia.
Qed.

Lemma queue_weight_sibling_chain c :
  queue_weight (sibling_chain c) = node_count c.
Proof.
  induction c as [|p i d c IHc s IHs]; [reflexivity|].
  cbn [sibling_chain]. rewrite queue_weight_cons, IHs. simpl. lia.
Qed.

(** The [while (head < q.size())] loop of [getSize]. [q] is the part of the
    vector from index [head] on: the loop reads [q[head++]], counts it and
    pushes its children at the back. *)
Equations? getSize_loop (q : list BinomialHeapNode) (count : Z) : Z
  by wf (queue_weight q) lt :=
  getSize_loop [] count := count;
  getSize_loop (current :: q) count :=
    getSize_loop (q ++ sibling_chain (child current)) (count + 1).
Proof.
  rewrite queue_weight_app, queue_weight_sibling_chain.
  rewrite queue_weight_cons. lia.
Qed.

(** [getSize]: every non-null root is queued, then the queue is walked. *)
Fixpoint queue_roots (roots : t) : list BinomialHeapNode :=
  match roots with
  | [] => []
  | root :: roots' =>
      if is_null root then queue_roots roots' else root :: queue_roots roots'
  end.

Definition getSize (roots : t) : Z := getSize_loop (queue_roots roots) 0.

(** [isEmpty]. *)
Definition isEmpty (roots : t) : bool :=
  match roots with [] => true | _ :: _ => false end.

(** *** consolidate *)

(** The inner [while (d < degree_table.size() && degree_table[d] != nullptr)]
    loop. It returns the table, the tree [current] and its degree [d] at loop
    exit. [table !! d] is [None] exactly when [d] is past the end of the
    vector. *)
Equations? carry_loop (table : list BinomialHeapNode)
    (current : BinomialHeapNode) (d : nat)
  : list BinomialHeapNode * BinomialHeapNode * nat
  by wf (length table - d)%nat lt :=
  carry_loop table current d with inspect (table !! d) => {
    | exist _ (Some other) Hd with is_null other => {
        | true := (table, current, d);
        | false :=
            if priority other <? priority current
            then carry_loop (<[d:=nullptr]> table) (link current other) (S d)
            else carry_loop (<[d:=nullptr]> table) (link other current) (S d) };
    | exist _ None Hd := (table, current, d) }.
Proof.
  all: apply lookup_lt_Some in Hd; rewrite length_insert; lia.
Qed.

(** [degree_table.resize(d + 1, nullptr)] when [d >= degree_table.size()]. *)
Definition resize_for (d : nat) (table : list BinomialHeapNode)
  : list BinomialHeapNode :=
  if (length table <=? d)%nat
  then table ++ replicate (d + 1 - length table) nullptr
  else table.

(** The outer [while (it != roots.end())] loop over the merged root list. *)
Fixpoint consolidate_loop (table : list BinomialHeapNode) (roots : t)
  : list BinomialHeapNode :=
  match roots with
  | [] => table
  | current :: roots' =>
      let '(table1, current1, d) := carry_loop table current (degree current) in
      consolidate_loop (<[d:=current1]> (resize_for d table1)) roots'
  end.

(** The [for (node : degree_table)] loop that rebuilds the root list. *)
Fixpoint rebuild_roots (table : list BinomialHeapNode) : t :=
  match table with
  | [] => []
  | node :: table' =>
      if is_null node then rebuild_roots table' else node :: rebuild_roots table'
  end.

(** [roots.sort(a->degree < b->degree)]. [std::list::sort] is a stable
    sort; it is modelled by stable insertion: an element goes after every
    element that compares less than it and before the others. *)
Fixpoint sort_insert (a : BinomialHeapNode) (l : t) : t :=
  match l with
  | [] => [a]
  | b :: l' =>
      if (degree b <? degree a)%nat then b :: sort_insert a l' else a :: b :: l'
  end.

Definition sort_by_degree (l : t) : t := foldr sort_insert [] l.

(** [static_cast<int>(log2(n > 0 ? n : 1)) + 2], raised to 5. For an [int]
    [n >= 1] the truncated floating-point logarithm is [Z.log2 n]. *)
Definition max_degree_possible (roots : t) : nat :=
  let n := getSize roots in
  let m := Z.log2 (if 0 <? n then n else 1) + 2 in
  Z.to_nat (if m <? 5 then 5 else m).

(** [consolidate] with the initial size of [degree_table] as a parameter:
    the table is resized on demand, and what is proved below about
    [consolidate] is proved for every initial size. *)
Definition consolidate_with (table_size : nat) (roots : t) : t :=
  if (length roots <=? 1)%nat then roots
  else
    let degree_table := replicate table_size nullptr in
    sort_by_degree (rebuild_roots (consolidate_loop degree_table roots)).

Definition consolidate (roots : t) : t :=
  consolidate_with (max_degree_possible roots) roots.

(** *** findMinNodeIterator *)

(** An iterator into [roots] is the index it points at; [roots.cend()] is
    [length roots]. *)
Definition cend (roots : t) : nat := length roots.

(** [*it]. *)
Definition deref (roots : t) (it : nat) : BinomialHeapNode :=
  default nullptr (roots !! it).

(** The [for] loop: [rest] is the list from [it] on, [min_node] is
    [*min_it]. *)
Fixpoint findMin_scan (rest : t) (it min_it : nat) (min_node : BinomialHeapNode)
  : nat :=
  match rest with
  | [] => min_it
  | n :: rest' =>
      if priority n <? priority min_node
      then findMin_scan rest' (S it) it n
      else findMin_scan rest' (S it) min_it min_node
  end.

Definition findMinNodeIterator (roots : t) : nat :=
  match roots with
  | [] => cend roots
  | r :: rest => findMin_scan rest 1 0 r
  end.

(** *** Public interface *)

(** [insert]. *)
Definition insert (priority : PriorityType) (passengerId : PassengerIdType)
    (roots : t) : t :=
  let new_node := new_node priority passengerId in
  let temp_heap := [new_node] in
  consolidate (mergeRootLists roots temp_heap).

Definition findMinPassengerId (roots : t) : result PassengerIdType :=
  let min_it := findMinNodeIterator roots in
  if (min_it =? cend roots)%nat then Thrown "Heap is empty"
  else Returned (passengerId (deref roots min_it)).

Definition findMinPriority (roots : t) : result PriorityType :=
  let min_it := findMinNodeIterator roots in
  if (min_it =? cend roots)%nat then Thrown "Heap is empty"
  else Returned (priority (deref roots min_it)).

(** The [while (child != nullptr)] loop of [extractMin]: each child is cut
    from its sibling and pushed at the front of [children_heap.roots]. *)
Fixpoint detach_children (child : BinomialHeapNode) (children_roots : t) : t :=
  match child with
  | nullptr => children_roots
  | Node p i d c next_sibling =>
      detach_children next_sibling (Node p i d c nullptr :: children_roots)
  end.

(** [extractMin]: the outcome and the heap after the call. *)
Definition extractMin (roots : t) : result PassengerIdType * t :=
  let min_it := findMinNodeIterator roots in
  if (min_it =? cend roots)%nat
  then (Thrown "Cannot extract from empty heap", roots)
  else
    let min_node := deref roots min_it in
    let roots1 := delete min_it roots in
    let children_heap := detach_children (child min_node) [] in
    let roots2 := consolidate (mergeRootLists roots1 children_heap) in
    (Returned (passengerId min_node), roots2).

(** *** The traversal of clear and collectNodes *)

(** Both functions walk the nodes with a [std::vector] used as a stack
    ([back], [pop_back], [push_back]). The stack is a list whose head is the
    back of the vector. *)
Definition stack_weight (q : list BinomialHeapNode) : nat :=
  foldr (fun n acc => S (2 * node_count n) + acc)%nat 0%nat q.

(** [if (p) q.push_back(p)]. *)
Definition push_nonnull (p : BinomialHeapNode) (q : list BinomialHeapNode)
  : list BinomialHeapNode :=
  if is_null p then q else p :: q.

Lemma stack_weight_cons n q :
  stack_weight (n :: q) = S (2 * node_count n + stack_weight q).
Proof. reflexivity. Qed.

Lemma stack_weight_step current q :
  (stack_weight (push_nonnull (sibling current) (push_nonnull (child current) q))
   < stack_weight (current :: q))%nat.
Proof.
  destruct current as [|p i d c s].
  - cbn [sibling child push_nonnull is_null]. rewrite stack_weight_cons. lia.
  - cbn [sibling child]. unfold push_nonnull.
    destruct s, c; cbn [is_null]; rewrite !stack_weight_cons;
      cbn [node_count]; lia.
Qed.

(** The [while (!q.empty())] loop: pop [current], record it, push its child
    and then its sibling. *)
Equations? collect_loop (q : list BinomialHeapNode)
    (nodes_list : list BinomialHeapNode) : list BinomialHeapNode
  by wf (stack_weight q) lt :=
  collect_loop [] nodes_list := nodes_list;
  collect_loop (current :: q) nodes_list :=
    collect_loop
      (push_nonnull (sibling current) (push_nonnull (child current) q))
      (nodes_list ++ [current]).
Proof. apply stack_weight_step. Qed.

(** [collectNodes(node, nodes_list)]: the contents of [nodes_list] after the
    call. *)
Definition collectNodes (node : BinomialHeapNode)
    (nodes_list : list BinomialHeapNode) : list BinomialHeapNode :=
  if is_null node then nodes_list else collect_loop [node] nodes_list.

(** [clear]: the vector [nodes_to_delete], whose elements are then released
    one by one. The roots are pushed in list order, so the last root is at
    the back. *)
Definition clear_nodes_to_delete (roots : t) : list BinomialHeapNode :=
  collect_loop (rev (queue_roots roots)) [].

(** [clear]: every node is released and the root list emptied. *)
Definition clear (roots : t) : t := [].

(** [getWaitlistOrdered_destructive]: the [while (!isEmpty())] loop, run for
    at most [fuel] iterations. [None] means that the fuel ran out; an
    exception of [findMinPriority] or [extractMin] would leave the loop. *)
Fixpoint drain_loop (fuel : nat) (roots : t)
    (waitlist : list (PriorityType * PassengerIdType))
  : option (result (list (PriorityType * PassengerIdType)) * t) :=
  match fuel with
  | O => None
  | S fuel' =>
      if isEmpty roots then Some (Returned waitlist, roots)
      else
        match findMinPriority roots with
        | Thrown e => Some (Thrown e, roots)
        | Returned prio =>
            match extractMin roots with
            | (Thrown e, roots') => Some (Thrown e, roots')
            | (Returned passId, roots') =>
                drain_loop fuel' roots' (waitlist ++ [(prio, passId)])
            end
        end
  end.

Definition getWaitlistOrdered_destructive (fuel : nat) (roots : t) :=
  drain_loop fuel roots [].

End BinomialHeap.

(** ** booking/Flight.cpp *)

Module Flight.

Record t : Type := mkFlight {
  flightId : string;
  origin : string;
  destination : string;
  capacity : Z;
  confirmedPassengers : list PassengerIdType;
  waitlistHeap : BinomialHeap.t
}.

(** [Flight::Flight(id, orig, dest, cap)]. *)
Definition Flight (id orig dest : string) (cap : Z) : t :=
  {| flightId := id; origin := orig; destination := dest;
     capacity := if cap >=? 0 then cap else 0;
     confirmedPassengers := [];
     waitlistHeap := BinomialHeap.empty |}.

Definition getCapacity (f : t) : Z := capacity f.
Definition getBookedCount (f : t) : Z := Z.of_nat (length (confirmedPassengers f)).
Definition getWaitlistCount (f : t) : Z := BinomialHeap.getSize (waitlistHeap f).

(** [std::find(v.begin(), v.end(), x)] as the index of the first element
    equal to [x], or [length v] for [v.end()]. *)
Fixpoint std_find (v : list PassengerIdType) (x : PassengerIdType) : nat :=
  match v with
  | [] => 0
  | y :: v' => if y =? x then 0%nat else S (std_find v' x)
  end.

(** [static_cast<size_t>(c)] for an [int c] on a 64-bit target. *)
Definition static_cast_size_t (c : Z) : Z := c mod 2 ^ 64.

(** Assignments to the two mutable members. *)
Definition set_confirmed (v : list PassengerIdType) (f : t) : t :=
  {| flightId := flightId f; origin := origin f; destination := destination f;
     capacity := capacity f; confirmedPassengers := v;
     waitlistHeap := waitlistHeap f |}.

Definition set_waitlist (h : BinomialHeap.t) (f : t) : t :=
  {| flightId := flightId f; origin := origin f; destination := destination f;
     capacity := capacity f; confirmedPassengers := confirmedPassengers f;
     waitlistHeap := h |}.

(** [addPassenger]: the returned flag and the flight after the call. *)
Definition addPassenger (passengerId : PassengerIdType) (priority : PriorityType)
    (f : t) : bool * t :=
  if (std_find (confirmedPassengers f) passengerId
        =? length (confirmedPassengers f))%nat
  then
    if Z.of_nat (length (confirmedPassengers f)) <? static_cast_size_t (capacity f)
    then (true, set_confirmed (confirmedPassengers f ++ [passengerId]) f)
    else
      (false,
       set_waitlist (BinomialHeap.insert priority passengerId (waitlistHeap f)) f)
  else (true, f).

(** [cancelBooking]: the returned flag and the flight after the call. The
    [catch] branch keeps what [extractMin] left of the heap and promotes
    nobody. *)
Definition cancelBooking (passengerId : PassengerIdType) (f : t) : bool * t :=
  let it := std_find (confirmedPassengers f) passengerId in
  if (it =? length (confirmedPassengers f))%nat then (false, f)
  else
    let f1 := set_confirmed (delete it (confirmedPassengers f)) f in
    if negb (BinomialHeap.isEmpty (waitlistHeap f1)) then
      match BinomialHeap.extractMin (waitlistHeap f1) with
      | (Returned promotedPassengerId, heap') =>
          (true,
           set_confirmed (confirmedPassengers f1 ++ [promotedPassengerId])
             (set_waitlist heap' f1))
      | (Thrown _, heap') => (true, set_waitlist heap' f1)
      end
    else (true, f1).

End Flight.

(** ** core/Passenger.h *)

Module Passenger.

Record t : Type := mkPassenger {
  id : PassengerIdType;
  name : string
}.

Definition INVALID_PASSENGER_ID : PassengerIdType := -1.

(** [Passenger()], the default constructor. *)
Definition default : t := mkPassenger INVALID_PASSENGER_ID "Unknown".

End Passenger.

(** ** booking/BookingSystem.cpp *)

(** The menu methods read their arguments from [std::cin]; here each takes
    the values its input loop has accepted. Screen output is not modelled.
    The two counters are C++ [int]s that only ever grow by one; they are
    modelled as [Z]. *)
Module BookingSystem.

Record t : Type := mkSystem {
  flights : gmap string Flight.t;
  passengers : gmap PassengerIdType Passenger.t;
  nextPassengerId : PassengerIdType;
  nextBookingPriority : PriorityType
}.

(** [std::map::emplace(k, v)]: inserts only when the key is absent. *)
Definition emplace `{Countable K} {V} (k : K) (v : V) (m : gmap K V) : gmap K V :=
  match m !! k with
  | Some _ => m
  | None => <[k:=v]> m
  end.

(** [passengers.emplace(nextPassengerId, Passenger(nextPassengerId, name));
    nextPassengerId++], as [loadSampleData] writes it and as
    [addNewPassenger] does with [newId = nextPassengerId++]. *)
Definition register (name : string) (s : t) : t :=
  let newId := nextPassengerId s in
  {| flights := flights s;
     passengers := emplace newId (Passenger.mkPassenger newId name) (passengers s);
     nextPassengerId := newId + 1;
     nextBookingPriority := nextBookingPriority s |}.

(** [flights.emplace(piecewise_construct, id, (id, origin, dest, capacity))]. *)
Definition emplace_flight (id origin dest : string) (capacity : Z) (s : t) : t :=
  {| flights := emplace id (Flight.Flight id origin dest capacity) (flights s);
     passengers := passengers s;
     nextPassengerId := nextPassengerId s;
     nextBookingPriority := nextBookingPriority s |}.

(** [addNewPassenger], with the line read by [std::getline]. *)
Definition addNewPassenger (name : string) (s : t) : t :=
  if decide (name = "") then s else register name s.

(** [bookTicket], with the passenger id that left the input loop (a key of
    [passengers]) and the flight id read. *)
Definition bookTicket (passengerId : PassengerIdType) (flightId : string)
    (s : t) : t :=
  match flights s !! flightId with
  | None => s
  | Some f =>
      let currentPriority := nextBookingPriority s in
      {| flights :=
           <[flightId := (Flight.addPassenger passengerId currentPriority f).2]>
             (flights s);
         passengers := passengers s;
         nextPassengerId := nextPassengerId s;
         nextBookingPriority := currentPriority + 1 |}
  end.

(** [cancelBooking], with the same two inputs. *)
Definition cancelBooking (passengerId : PassengerIdType) (flightId : string)
    (s : t) : t :=
  match flights s !! flightId with
  | None => s
  | Some f =>
      {| flights := <[flightId := (Flight.cancelBooking passengerId f).2]> (flights s);
         passengers := passengers s;
         nextPassengerId := nextPassengerId s;
         nextBookingPriority := nextBookingPriority s |}
  end.

(** [addNewFlight], with the id read and, when the id is new, the origin,
    destination and the capacity that left the input loop (not negative). *)
Definition addNewFlight (id origin dest : string) (capacity : Z) (s : t) : t :=
  match flights s !! id with
  | Some _ => s
  | None => emplace_flight id origin dest capacity s
  end.

(** [if (flights.count(id)) flights.at(id).addPassenger(p, nextBookingPriority++)],
    one booking of [loadSampleData]. The source tests [flights.count] once
    for the four bookings on one flight; no flight is ever removed, so the
    test gives the same answer before each of them. *)
Definition prebook (flightId : string) (passengerId : PassengerIdType) (s : t) : t :=
  bookTicket passengerId flightId s.

(** [loadSampleData]. *)
Definition loadSampleData (s : t) : t :=
  let s := register "Alice" s in
  let s := register "Bob" s in
  let s := register "Charlie" s in
  let s := register "David" s in
  let s := register "Eve" s in
  let s := register "Frank" s in
  let s := emplace_flight "AI101" "Delhi" "Mumbai" 2 s in
  let s := emplace_flight "BA202" "London" "NewYork" 250 s in
  let s := emplace_flight "LH303" "Frankfurt" "Tokyo" 3 s in
  let s := prebook "AI101" 1 s in
  let s := prebook "AI101" 2 s in
  let s := prebook "AI101" 3 s in
  let s := prebook "AI101" 4 s in
  prebook "LH303" 5 s.

(** [BookingSystem::BookingSystem()]. *)
Definition BookingSystem : t :=
  loadSampleData
    {| flights := ∅; passengers := ∅;
       nextPassengerId := 1; nextBookingPriority := 1 |}.

(** One pass of the [do ... while] loop of [run]: the menu choice together
    with the inputs the chosen method accepted. Choices 1 and 2 and an
    invalid choice only print. *)
Inductive action : Type :=
| ListAllFlights
| ViewFlightDetails (flightId : string)
| AddNewPassenger (name : string)
| BookTicket (passengerId : PassengerIdType) (flightId : string)
| CancelBooking (passengerId : PassengerIdType) (flightId : string)
| AddNewFlight (id origin dest : string) (capacity : Z)
| Exit
| InvalidChoice.

(** The [switch (choice)]. *)
Definition step (a : action) (s : t) : t :=
  match a with
  | ListAllFlights => s
  | ViewFlightDetails _ => s
  | AddNewPassenger name => addNewPassenger name s
  | BookTicket passengerId flightId => bookTicket passengerId flightId s
  | CancelBooking passengerId flightId => cancelBooking passengerId flightId s
  | AddNewFlight id origin dest capacity => addNewFlight id origin dest capacity s
  | Exit => s
  | InvalidChoice => s
  end.

(** [run]: the loop ends at choice 0; the result is the state then, or the
    state when the inputs are used up. *)
Fixpoint run (actions : list action) (s : t) : t :=
  match actions with
  | [] => s
  | Exit :: _ => s
  | a :: actions' => run actions' (step a s)
  end.

End BookingSystem.

(** ** Observations and invariants of the heap *)

Module HeapInv.
Import BinomialHeap.

(** Every [(priority, passengerId)] stored below a pointer, following both
    [child] and [sibling] links. *)
Fixpoint node_elems (n : BinomialHeapNode) : list (PriorityType * PassengerIdType) :=
  match n with
  | nullptr => []
  | Node p i _ c s => (p, i) :: node_elems c ++ node_elems s
  end.

(** The entries of the tree rooted at [r]: [r] and what hangs below its
    [child] pointer. *)
Definition tree_elems (r : BinomialHeapNode) : list (PriorityType * PassengerIdType) :=
  match r with
  | nullptr => []
  | Node p i _ c _ => (p, i) :: node_elems c
  end.

(** The entries of a forest given by its root list (or degree table). *)
Definition heap_elems (roots : list BinomialHeapNode)
  : list (PriorityType * PassengerIdType) :=
  concat (map tree_elems roots).

(** Every node below a pointer, as a node. *)
Fixpoint all_nodes (n : BinomialHeapNode) : list BinomialHeapNode :=
  match n with
  | nullptr => []
  | Node _ _ _ c s => n :: all_nodes c ++ all_nodes s
  end.

(** The proper descendants of a node, and its direct children. *)
Definition descendants (n : BinomialHeapNode) : list BinomialHeapNode :=
  all_nodes (child n).

Definition children (n : BinomialHeapNode) : list BinomialHeapNode :=
  sibling_chain (child n).

(** Every node of the forest: each root with its descendants. *)
Definition heap_nodes (roots : BinomialHeap.t) : list BinomialHeapNode :=
  concat (map (fun r => r :: descendants r) roots).

(** [is_binomial_chain k n]: [n] heads a sibling chain of [k] binomial trees
    of degrees [k-1], ..., [0]. *)
Fixpoint is_binomial_chain (k : nat) (n : BinomialHeapNode) : Prop :=
  match n, k with
  | nullptr, O => True
  | Node _ _ d c s, S k' => d = k' /\ is_binomial_chain k' c /\ is_binomial_chain k' s
  | _, _ => False
  end.

(** [heap_ordered_from b n]: in the sibling chain headed by [n], whose
    parent has priority [b], no node is below its parent. *)
Fixpoint heap_ordered_from (b : PriorityType) (n : BinomialHeapNode) : Prop :=
  match n with
  | nullptr => True
  | Node p _ _ c s => b <= p /\ heap_ordered_from p c /\ heap_ordered_from b s
  end.

(** A well-formed root: a real node with no sibling, heading a heap-ordered
    binomial tree whose rank is its [degree] field. *)
Definition good_root (r : BinomialHeapNode) : Prop :=
  match r with
  | nullptr => False
  | Node p _ d c s =>
      s = nullptr /\ is_binomial_chain d c /\ heap_ordered_from p c
  end.

(** The invariant of the heap between two public calls. *)
Definition heap_inv (roots : BinomialHeap.t) : Prop :=
  Forall good_root roots /\ StronglySorted lt (map degree roots).

(** A slot of the degree table is free or holds a well-formed tree whose
    degree is the slot's index; [k] is the index of the first slot. *)
Definition table_ok (k : nat) (table : list BinomialHeapNode) : Prop :=
  forall i n, table !! i = Some n ->
    n = nullptr \/ (good_root n /\ degree n = (k + i)%nat).

(** Heaps reachable from the empty heap by [insert] and successful
    [extractMin] calls. *)
Inductive reachable : BinomialHeap.t -> Prop :=
| reachable_empty : reachable empty
| reachable_insert p i h : reachable h -> reachable (insert p i h)
| reachable_extractMin h i h' :
    reachable h -> extractMin h = (Returned i, h') -> reachable h'.

(** One public mutating call. *)
Inductive op : Type :=
| Insert (p : PriorityType) (i : PassengerIdType)
| ExtractMin.

(** Runs a sequence of calls; [None] as soon as an [extractMin] throws. *)
Fixpoint run (ops : list op) (h : BinomialHeap.t) : option BinomialHeap.t :=
  match ops with
  | [] => Some h
  | Insert p i :: ops' => run ops' (insert p i h)
  | ExtractMin :: ops' =>
      match extractMin h with
      | (Returned _, h') => run ops' h'
      | (Thrown _, _) => None
      end
  end.

Definition count_inserts (ops : list op) : nat :=
  length (List.filter (fun o => match o with Insert _ _ => true | ExtractMin => false end) ops).

Definition count_extracts (ops : list op) : nat :=
  length (List.filter (fun o => match o with Insert _ _ => false | ExtractMin => true end) ops).

(** The heap built by a sequence of [insert] calls, first element first. *)
Definition insert_all (l : list (PriorityType * PassengerIdType)) : BinomialHeap.t :=
  foldl (fun h e => insert e.1 e.2 h) empty l.

(** The node count the degrees of the roots promise: the sum of
    [2 ^ degree] over the root list. *)
Definition sum_pow_degrees (roots : BinomialHeap.t) : Z :=
  foldr (fun r acc => 2 ^ Z.of_nat (degree r) + acc) 0 roots.

(** The order of the drained sequence: by priority only. *)
Definition prio_le (x y : PriorityType * PassengerIdType) : Prop := x.1 <= y.1.

End HeapInv.

(** ** Observations and reachable states of a flight *)

Module FlightInv.
Import Flight.

(** The passenger ids stored in the waitlist heap. *)
Definition waitlist_ids (f : Flight.t) : list PassengerIdType :=
  map snd (HeapInv.heap_elems (waitlistHeap f)).

(** Flights reachable from the constructor, called with any [int], by
    [addPassenger] and [cancelBooking] calls. *)
Inductive reachable_flight : Flight.t -> Prop :=
| reachable_Flight id orig dest cap :
    INT_MIN <= cap <= INT_MAX -> reachable_flight (Flight id orig dest cap)
| reachable_addPassenger f p prio :
    reachable_flight f -> reachable_flight (addPassenger p prio f).2
| reachable_cancelBooking f p :
    reachable_flight f -> reachable_flight (cancelBooking p f).2.

(** The same, when [addPassenger] is never called with an id that is on the
    waitlist at that moment. *)
Inductive reachable_fresh : Flight.t -> Prop :=
| fresh_Flight id orig dest cap :
    INT_MIN <= cap <= INT_MAX -> reachable_fresh (Flight id orig dest cap)
| fresh_addPassenger f p prio :
    reachable_fresh f -> p ∉ waitlist_ids f ->
    reachable_fresh (addPassenger p prio f).2
| fresh_cancelBooking f p :
    reachable_fresh f -> reachable_fresh (cancelBooking p f).2.

(** No passenger id is booked twice, whether confirmed or waitlisted. *)
Definition no_duplicate_booking (f : Flight.t) : Prop :=
  NoDup (confirmedPassengers f ++ waitlist_ids f).

(** What the induction over reachable flights carries. *)
Definition flight_inv (f : Flight.t) : Prop :=
  0 <= capacity f <= INT_MAX /\
  Z.of_nat (length (confirmedPassengers f)) <= capacity f /\
  HeapInv.heap_inv (waitlistHeap f).

(** A flight of capacity 1 on which passenger 2 was waitlisted twice before
    passenger 1 cancelled. *)
Definition double_booked : Flight.t :=
  (cancelBooking 1
     (addPassenger 2 12
        (addPassenger 2 11
           (addPassenger 1 10 (Flight "AI101" "DEL" "BOM" 1)).2).2).2).2.

(** Capacity 2; passengers 1 and 2 confirmed, 3 and 4 waitlisted. *)
Definition full_flight : Flight.t :=
  (addPassenger 4 13
     (addPassenger 3 12
        (addPassenger 2 11
           (addPassenger 1 10 (Flight "AI101" "DEL" "BOM" 2)).2).2).2).2.

(** Flights reached from a given flight [f0] by [addPassenger] and
    [cancelBooking] calls. *)
Inductive reachable_from (f0 : Flight.t) : Flight.t -> Prop :=
| from_start : reachable_from f0 f0
| from_addPassenger f p prio :
    reachable_from f0 f -> reachable_from f0 (addPassenger p prio f).2
| from_cancelBooking f p :
    reachable_from f0 f -> reachable_from f0 (cancelBooking p f).2.

(** Confirmed plus waitlisted bookings, as [displayStatus] counts them. *)
Definition total_bookings (f : Flight.t) : Z :=
  getBookedCount f + getWaitlistCount f.

(** Nobody waits unless every seat is taken. *)
Definition seats_used (f : Flight.t) : Prop :=
  BinomialHeap.isEmpty (waitlistHeap f) = false ->
  getBookedCount f = getCapacity f.

End FlightInv.

(** ** Reachable states of the booking system *)

Module BookingInv.
Import BookingSystem.

(** What the input loops guarantee about the values they let through:
    [bookTicket] and [cancelBooking] loop until the passenger id is a key of
    [passengers]; [addNewFlight] loops until the capacity is a non-negative
    [int]. *)
Definition accepted (a : action) (s : BookingSystem.t) : Prop :=
  match a with
  | BookTicket passengerId _ => is_Some (passengers s !! passengerId)
  | CancelBooking passengerId _ => is_Some (passengers s !! passengerId)
  | AddNewFlight _ _ _ capacity => 0 <= capacity <= INT_MAX
  | _ => True
  end.

(** States of the system: the constructor's, then any menu actions. *)
Inductive reachable_system : BookingSystem.t -> Prop :=
| reachable_BookingSystem : reachable_system BookingSystem
| reachable_step a s :
    reachable_system s -> accepted a s -> reachable_system (step a s).

(** Every record of the registry sits under its own id, and ids were handed
    out from 1 up to the counter. *)
Definition registry_ok (s : BookingSystem.t) : Prop :=
  forall k p, passengers s !! k = Some p ->
    Passenger.id p = k /\ 1 <= k < nextPassengerId s.

(** What holds of a flight stored under the key [fid]. *)
Definition flight_ok (s : BookingSystem.t) (fid : string) (f : Flight.t) : Prop :=
  Flight.flightId f = fid /\
  FlightInv.reachable_flight f /\
  Forall (fun x => is_Some (passengers s !! x))
         (Flight.confirmedPassengers f ++ FlightInv.waitlist_ids f) /\
  Forall (fun e => 1 <= e.1 < nextBookingPriority s)
         (HeapInv.heap_elems (Flight.waitlistHeap f)) /\
  NoDup (map fst (HeapInv.heap_elems (Flight.waitlistHeap f))).

Definition system_inv (s : BookingSystem.t) : Prop :=
  registry_ok s /\
  1 <= nextPassengerId s /\
  1 <= nextBookingPriority s /\
  forall fid f, flights s !! fid = Some f -> flight_ok s fid f.

End BookingInv.

(** ** Proofs about the heap *)

Module HeapProofs.
Import BinomialHeap HeapInv.

(** *** The model on small inputs *)

(** Priorities 9, 2, 3, 1, 5 inserted in that order: the trees of degree 0
    and 1 are linked under the root of priority 1 by the fourth insert. *)
Example insert_five :
  insert_all [(9, 90); (2, 20); (3, 30); (1, 10); (5, 50)] =
  [Node 5 50 0 nullptr nullptr;
   Node 1 10 2
     (Node 2 20 1 (Node 9 90 0 nullptr nullptr) (Node 3 30 0 nullptr nullptr))
     nullptr].
Proof. vm_compute. reflexivity. Qed.

Example extractMin_five :
  extractMin (insert_all [(9, 90); (2, 20); (3, 30); (1, 10); (5, 50)]) =
  (Returned 10,
   [Node 2 20 2
      (Node 3 30 1 (Node 5 50 0 nullptr nullptr) (Node 9 90 0 nullptr nullptr))
      nullptr]).
Proof. vm_compute. reflexivity. Qed.

Example drain_seven :
  getWaitlistOrdered_destructive 8
    (insert_all [(4, 40); (7, 70); (1, 10); (6, 60); (3, 30); (5, 50); (2, 20)]) =
  Some (Returned [(1, 10); (2, 20); (3, 30); (4, 40); (5, 50); (6, 60); (7, 70)],
        []).
Proof. vm_compute. reflexivity. Qed.

Example extractMin_fresh_heap :
  isEmpty empty = true /\
  extractMin empty = (Thrown "Cannot extract from empty heap", empty).
Proof. split; reflexivity. Qed.

(** *** getSize counts the stored entries *)

Lemma getSize_loop_weight q count :
  getSize_loop q count = count + Z.of_nat (queue_weight q).
Proof.
  funelim (getSize_loop q count); simp getSize_loop.
  - simpl. lia.
  - match goal with IH : getSize_loop _ _ = _ + _ |- _ => rewrite IH end.
    rewrite queue_weight_app, queue_weight_sibling_chain, queue_weight_cons. lia.
Qed.

Lemma node_elems_length n : length (node_elems n) = node_count n.
Proof.
  induction n as [|p i d c IHc s IHs]; simpl; [reflexivity|].
  rewrite length_app. lia.
Qed.

Lemma queue_roots_weight roots :
  queue_weight (queue_roots roots) = length (heap_elems roots).
Proof.
  induction roots as [|r roots IH]; [reflexivity|].
  unfold heap_elems in *. cbn [map concat queue_roots].
  rewrite length_app, <- IH.
  destruct r as [|p i d c s]; cbn [is_null tree_elems]; [reflexivity|].
  rewrite queue_weight_cons. cbn [length child]. rewrite node_elems_length. lia.
Qed.

Lemma getSize_elems roots : getSize roots = Z.of_nat (length (heap_elems roots)).
Proof.
  unfold getSize. rewrite getSize_loop_weight, queue_roots_weight. lia.
Qed.

(** *** link *)

Lemma link_elems y z :
  is_null z = false ->
  tree_elems (link y z) ≡ₚ tree_elems z ++ tree_elems y.
Proof.
  destruct z as [|pz iz dz cz sz]; [discriminate|]. intros _.
  destruct y as [|py iy dy cy sy]; simpl.
  - by rewrite app_nil_r.
  - constructor. rewrite (Permutation_app_comm (node_elems cz)). reflexivity.
Qed.

Lemma link_good y z :
  good_root y -> good_root z -> degree y = degree z ->
  priority z <= priority y ->
  good_root (link y z) /\ degree (link y z) = S (degree z).
Proof.
  destruct y as [|py iy dy cy sy]; [contradiction|].
  destruct z as [|pz iz dz cz sz]; [contradiction|].
  simpl. intros (_ & Hby & Hoy) (Hs & Hbz & Hoz) -> Hle. tauto.
Qed.

Lemma good_root_not_null r : good_root r -> is_null r = false.
Proof. destruct r; [contradiction|reflexivity]. Qed.

(** *** The degree table *)

Lemma heap_elems_cons r roots :
  heap_elems (r :: roots) = tree_elems r ++ heap_elems roots.
Proof. reflexivity. Qed.

Lemma heap_elems_app l1 l2 :
  heap_elems (l1 ++ l2) = heap_elems l1 ++ heap_elems l2.
Proof. unfold heap_elems. by rewrite map_app, concat_app. Qed.

Lemma heap_elems_replicate_null n : heap_elems (replicate n nullptr) = [].
Proof. induction n as [|n IH]; [reflexivity|]. exact IH. Qed.

Lemma heap_elems_insert (table : list BinomialHeapNode) d old new :
  table !! d = Some old ->
  tree_elems old ++ heap_elems (<[d:=new]> table)
    ≡ₚ tree_elems new ++ heap_elems table.
Proof.
  revert d. induction table as [|n table IH]; intros d Hd; [discriminate|].
  destruct d as [|d]; simpl in Hd.
  - injection Hd as ->. cbn [list_insert insert]. rewrite !heap_elems_cons.
    apply Permutation_app_swap_app.
  - change (<[S d:=new]> (n :: table)) with (n :: <[d:=new]> table).
    rewrite !heap_elems_cons.
    rewrite (Permutation_app_swap_app (tree_elems old)), (IH d Hd).
    apply Permutation_app_swap_app.
Qed.

Lemma table_ok_insert k (table : list BinomialHeapNode) d n :
  table_ok k table ->
  n = nullptr \/ (good_root n /\ degree n = (k + d)%nat) ->
  table_ok k (<[d:=n]> table).
Proof.
  intros Hok Hn i m Hi.
  destruct (decide (d = i)) as [<-|Hne].
  - assert (d < length table)%nat as Hlt.
    { apply lookup_lt_Some in Hi. by rewrite length_insert in Hi. }
    rewrite list_lookup_insert_eq in Hi by done. by injection Hi as <-.
  - rewrite list_lookup_insert_ne in Hi by done. by apply Hok.
Qed.

Lemma table_ok_replicate k n : table_ok k (replicate n nullptr).
Proof.
  intros i m Hi. apply lookup_replicate in Hi as [-> _]. by left.
Qed.

Lemma table_ok_resize k d table :
  table_ok k table -> table_ok k (resize_for d table).
Proof.
  intros Hok. unfold resize_for. case_match; [|done].
  intros i m Hi. apply lookup_app_Some in Hi as [Hi|[_ Hi]].
  - by apply Hok.
  - apply lookup_replicate in Hi as [-> _]. by left.
Qed.

Lemma resize_for_length d table : (d < length (resize_for d table))%nat.
Proof.
  unfold resize_for. case_match eqn:Hle.
  - apply Nat.leb_le in Hle. rewrite length_app, length_replicate. lia.
  - apply Nat.leb_gt in Hle. lia.
Qed.

Lemma heap_elems_resize d table :
  heap_elems (resize_for d table) = heap_elems table.
Proof.
  unfold resize_for. case_match; [|done].
  by rewrite heap_elems_app, heap_elems_replicate_null, app_nil_r.
Qed.

Lemma resize_for_free d table :
  (forall n, table !! d = Some n -> n = nullptr) ->
  forall n, resize_for d table !! d = Some n -> n = nullptr.
Proof.
  intros Hfree n. unfold resize_for. case_match; [|by apply Hfree].
  intros Hi. apply lookup_app_Some in Hi as [Hi|[_ Hi]]; [by eapply Hfree|].
  by apply lookup_replicate in Hi as [-> _].
Qed.

(** *** The inner loop of consolidate *)

Lemma carry_loop_spec table current d :
  table_ok 0 table -> good_root current -> degree current = d ->
  let '(table', current', d') := carry_loop table current d in
  table_ok 0 table' /\ good_root current' /\ degree current' = d' /\
  (forall n, table' !! d' = Some n -> n = nullptr) /\
  tree_elems current' ++ heap_elems table'
    ≡ₚ tree_elems current ++ heap_elems table.
Proof.
  funelim (carry_loop table current d); intros Hok Hcur Hdeg.
  all: try rewrite <- Heqcall.
  - repeat split; try done. intros n Hn. congruence.
  - repeat split; try done. intros n Hn.
    assert (n = other) as -> by congruence. by destruct other.
  - clear Heqcall. rename H into IHswap, H0 into IHkeep.
    assert (good_root other /\ degree other = d) as [Hoth Hdo].
    { destruct (Hok _ _ Hd) as [->|[? ?]]; [discriminate|]. by split. }
    assert (table_ok 0 (<[d:=nullptr]> table)) as Hok'.
    { apply table_ok_insert; [done|by left]. }
    pose proof (heap_elems_insert table d other nullptr Hd) as Hperm.
    simpl in Hperm.
    destruct (priority other <? priority current) eqn:Hlt.
    + apply Z.ltb_lt in Hlt.
      destruct (link_good current other) as [Hg Hdg]; [done|done|congruence|lia|].
      specialize (IHswap Hok' Hg ltac:(congruence)). clear IHkeep.
      destruct (carry_loop _ _ _) as [[table' current'] d'].
      cbv beta iota in IHswap |- *.
      destruct IHswap as (? & ? & ? & ? & IHperm). repeat split; try done.
      rewrite IHperm, link_elems by by apply good_root_not_null.
      rewrite <- Hperm, (Permutation_app_comm (tree_elems other)).
      by rewrite <- app_assoc.
    + apply Z.ltb_ge in Hlt.
      destruct (link_good other current) as [Hg Hdg]; [done|done|congruence|lia|].
      specialize (IHkeep Hok' Hg ltac:(congruence)). clear IHswap.
      destruct (carry_loop _ _ _) as [[table' current'] d'].
      cbv beta iota in IHkeep |- *.
      destruct IHkeep as (? & ? & ? & ? & IHperm). repeat split; try done.
      rewrite IHperm, link_elems by by apply good_root_not_null.
      by rewrite <- Hperm, <- app_assoc.
Qed.

(** *** The outer loop of consolidate *)

Lemma consolidate_loop_spec roots : forall table,
  table_ok 0 table -> Forall good_root roots ->
  table_ok 0 (consolidate_loop table roots) /\
  heap_elems (consolidate_loop table roots)
    ≡ₚ heap_elems table ++ heap_elems roots.
Proof.
  induction roots as [|current roots IH]; intros table Hok Hgood.
  - simpl. split; [done|]. by rewrite app_nil_r.
  - apply Forall_cons in Hgood as [Hcur Hgood]. cbn [consolidate_loop].
    pose proof (carry_loop_spec table current (degree current) Hok Hcur eq_refl)
      as Hcarry.
    destruct (carry_loop table current (degree current))
      as [[table1 current1] d].
    cbv beta iota in Hcarry.
    destruct Hcarry as (Hok1 & Hcur1 & Hdeg1 & Hfree & Hperm).
    destruct (lookup_lt_is_Some_2 (resize_for d table1) d
                (resize_for_length d table1)) as [old Hold].
    assert (old = nullptr) as -> by by eapply resize_for_free.
    destruct (IH (<[d:=current1]> (resize_for d table1))) as [Hok2 Hperm2];
      [|done|].
    { apply table_ok_insert; [by apply table_ok_resize|]. right. by split. }
    split; [done|]. rewrite Hperm2.
    pose proof (heap_elems_insert _ d nullptr current1 Hold) as Hins.
    simpl in Hins. rewrite Hins, heap_elems_resize, heap_elems_cons, Hperm.
    rewrite (Permutation_app_comm (tree_elems current)), <- app_assoc.
    reflexivity.
Qed.

(** *** Rebuilding and sorting the root list *)

Lemma rebuild_roots_elems table :
  heap_elems (rebuild_roots table) = heap_elems table.
Proof.
  induction table as [|n table IH]; [reflexivity|].
  destruct n; cbn [rebuild_roots is_null]; rewrite !heap_elems_cons, ?IH; done.
Qed.

Lemma table_ok_tail k n table :
  table_ok k (n :: table) -> table_ok (S k) table.
Proof.
  intros Hok i m Hi. destruct (Hok (S i) m Hi) as [->|[? Hd]]; [by left|].
  right. split; [done|]. lia.
Qed.

Lemma rebuild_roots_good table : forall k,
  table_ok k table ->
  Forall good_root (rebuild_roots table) /\
  Forall (fun r => (k <= degree r)%nat) (rebuild_roots table) /\
  StronglySorted lt (map degree (rebuild_roots table)).
Proof.
  induction table as [|n table IH]; intros k Hok.
  - simpl. repeat split; constructor.
  - destruct (IH (S k) (table_ok_tail _ _ _ Hok)) as (Hg & Hlb & Hs).
    assert (Forall (fun r => (k <= degree r)%nat) (rebuild_roots table)) as Hlb'.
    { eapply Forall_impl; [exact Hlb|]. simpl. lia. }
    destruct (Hok 0%nat n eq_refl) as [->|[Hn Hd]]; [done|].
    cbn [rebuild_roots]. rewrite (good_root_not_null _ Hn).
    repeat split.
    + by constructor.
    + constructor; [lia|done].
    + cbn [map]. constructor; [done|].
      apply List.Forall_map. eapply Forall_impl; [exact Hlb|].
      simpl. lia.
Qed.

Lemma sort_insert_head a l :
  Forall (fun b => (degree a < degree b)%nat) l -> sort_insert a l = a :: l.
Proof.
  destruct l as [|b l]; [done|]. intros Hall.
  apply Forall_cons in Hall as [Hab _]. simpl.
  destruct (degree b <? degree a)%nat eqn:Hlt; [|done].
  apply Nat.ltb_lt in Hlt. lia.
Qed.

Lemma sort_by_degree_sorted l :
  StronglySorted lt (map degree l) -> sort_by_degree l = l.
Proof.
  induction l as [|a l IH]; [done|]. cbn [map]. intros Hs.
  apply StronglySorted_inv in Hs as [Hs Hall].
  unfold sort_by_degree in *. cbn [foldr]. rewrite (IH Hs).
  apply sort_insert_head. rewrite List.Forall_map in Hall. exact Hall.
Qed.

(** *** consolidate *)

Lemma consolidate_with_spec table_size roots :
  Forall good_root roots ->
  heap_inv (consolidate_with table_size roots) /\
  heap_elems (consolidate_with table_size roots) ≡ₚ heap_elems roots.
Proof.
  intros Hgood. unfold consolidate_with.
  destruct (length roots <=? 1)%nat eqn:Hlen.
  - split; [|done]. split; [done|].
    apply Nat.leb_le in Hlen.
    destruct roots as [|r [|r' roots]]; simpl in *; try lia; repeat constructor.
  - destruct (consolidate_loop_spec roots (replicate table_size nullptr))
      as [Hok Hperm]; [apply table_ok_replicate|done|].
    destruct (rebuild_roots_good _ 0%nat Hok) as (Hg & _ & Hs).
    rewrite (sort_by_degree_sorted _ Hs). split; [by split|].
    by rewrite rebuild_roots_elems, Hperm, heap_elems_replicate_null.
Qed.

Lemma consolidate_spec roots :
  Forall good_root roots ->
  heap_inv (consolidate roots) /\
  heap_elems (consolidate roots) ≡ₚ heap_elems roots.
Proof. apply consolidate_with_spec. Qed.

(** *** mergeRootLists *)

Lemma mergeRootLists_perm roots other :
  mergeRootLists roots other ≡ₚ roots ++ other.
Proof.
  revert other. induction roots as [|r1 roots IH]; intros other; [done|].
  induction other as [|r2 other IHo].
  - by rewrite app_nil_r.
  - cbn [mergeRootLists] in *. destruct (degree r1 <=? degree r2)%nat.
    + by rewrite IH.
    + rewrite IHo. by rewrite <- Permutation_middle.
Qed.

Lemma heap_elems_perm l1 l2 : l1 ≡ₚ l2 -> heap_elems l1 ≡ₚ heap_elems l2.
Proof.
  intros Hp. unfold heap_elems.
  induction Hp as [|x l l' _ IH|x y l|l l' l'' _ IH1 _ IH2]; cbn [map concat].
  - done.
  - by rewrite IH.
  - apply Permutation_app_swap_app.
  - by rewrite IH1.
Qed.

Lemma mergeRootLists_spec roots other :
  Forall good_root roots -> Forall good_root other ->
  Forall good_root (mergeRootLists roots other) /\
  heap_elems (mergeRootLists roots other)
    ≡ₚ heap_elems roots ++ heap_elems other.
Proof.
  intros Hr Ho. split.
  - rewrite mergeRootLists_perm. by apply Forall_app.
  - by rewrite (heap_elems_perm _ _ (mergeRootLists_perm roots other)),
      heap_elems_app.
Qed.

(** *** insert *)

Lemma insert_spec p i roots :
  Forall good_root roots ->
  heap_inv (insert p i roots) /\
  heap_elems (insert p i roots) ≡ₚ (p, i) :: heap_elems roots.
Proof.
  intros Hgood. unfold insert.
  destruct (mergeRootLists_spec roots [new_node p i]) as [Hg Hperm]; [done| |].
  { repeat constructor. }
  destruct (consolidate_spec _ Hg) as [Hinv Hperm']. split; [done|].
  rewrite Hperm', Hperm. cbn. by rewrite <- Permutation_middle, app_nil_r.
Qed.

(** *** findMinNodeIterator *)

Lemma findMin_scan_spec rest : forall pre it min_it min_node,
  it = length pre ->
  (pre ++ rest) !! min_it = Some min_node ->
  Forall (fun r => priority min_node <= priority r) pre ->
  exists m,
    (pre ++ rest) !! findMin_scan rest it min_it min_node = Some m /\
    Forall (fun r => priority m <= priority r) (pre ++ rest).
Proof.
  induction rest as [|n rest IH]; intros pre it min_it min_node -> Hmin Hall.
  - exists min_node. rewrite app_nil_r in *. by split.
  - cbn [findMin_scan]. rewrite cons_middle, app_assoc in *.
    destruct (priority n <? priority min_node) eqn:Hlt.
    + apply Z.ltb_lt in Hlt. apply (IH (pre ++ [n])).
      * rewrite length_app. simpl. lia.
      * rewrite lookup_app_l by (rewrite length_app; simpl; lia).
        by rewrite list_lookup_middle.
      * apply Forall_app. split; [|by repeat constructor].
        eapply Forall_impl; [exact Hall|]. simpl. lia.
    + apply Z.ltb_ge in Hlt. apply (IH (pre ++ [n])).
      * rewrite length_app. simpl. lia.
      * done.
      * apply Forall_app. split; [done|]. by repeat constructor.
Qed.

Lemma findMinNodeIterator_spec r roots :
  exists m,
    (r :: roots) !! findMinNodeIterator (r :: roots) = Some m /\
    Forall (fun x => priority m <= priority x) (r :: roots).
Proof.
  apply (findMin_scan_spec roots [r] 1%nat 0%nat r); [done|done|].
  repeat constructor. lia.
Qed.

Lemma findMinNodeIterator_end roots :
  (findMinNodeIterator roots =? cend roots)%nat = isEmpty roots.
Proof.
  destruct roots as [|r roots]; [done|].
  destruct (findMinNodeIterator_spec r roots) as (m & Hm & _).
  apply lookup_lt_Some in Hm. unfold cend. simpl isEmpty.
  apply Nat.eqb_neq. lia.
Qed.

(** *** extractMin *)

Lemma heap_ordered_elems b n :
  heap_ordered_from b n -> Forall (fun e => b <= e.1) (node_elems n).
Proof.
  revert b. induction n as [|p i d c IHc s IHs]; intros b; simpl; [done|].
  intros (Hb & Hc & Hs). constructor; [done|]. apply Forall_app. split.
  - eapply Forall_impl; [by apply IHc|]. simpl. lia.
  - by apply IHs.
Qed.

Lemma good_root_min r :
  good_root r -> Forall (fun e => priority r <= e.1) (tree_elems r).
Proof.
  destruct r as [|p i d c s]; [done|]. intros (_ & _ & Ho). simpl.
  constructor; [simpl; lia|]. by apply heap_ordered_elems.
Qed.

Lemma heap_min_bound m roots :
  Forall good_root roots ->
  Forall (fun r => priority m <= priority r) roots ->
  Forall (fun e => priority m <= e.1) (heap_elems roots).
Proof.
  induction roots as [|r roots IH]; intros Hg Hm; [constructor|].
  apply Forall_cons in Hg as [Hr Hg]. apply Forall_cons in Hm as [Hmr Hm].
  rewrite heap_elems_cons. apply Forall_app. split; [|by apply IH].
  eapply Forall_impl; [by apply good_root_min|]. simpl. lia.
Qed.

Lemma detach_children_spec c : forall children_roots b k,
  is_binomial_chain k c -> heap_ordered_from b c ->
  Forall good_root children_roots ->
  Forall good_root (detach_children c children_roots) /\
  heap_elems (detach_children c children_roots)
    ≡ₚ node_elems c ++ heap_elems children_roots.
Proof.
  induction c as [|p i d c _ s IHs]; intros acc b k Hb Ho Hacc; [done|].
  destruct k as [|k]; [contradiction|].
  destruct Hb as (-> & Hbc & Hbs). destruct Ho as (_ & Hoc & Hos).
  cbn [detach_children].
  destruct (IHs (Node p i k c nullptr :: acc) b k Hbs Hos) as [Hg Hperm].
  { constructor; [|done]. simpl. done. }
  split; [done|]. rewrite Hperm, heap_elems_cons. cbn [tree_elems node_elems].
  rewrite Permutation_app_swap_app. simpl. constructor.
  by rewrite <- app_assoc.
Qed.

Lemma extractMin_spec roots :
  Forall good_root roots -> isEmpty roots = false ->
  exists p i roots',
    extractMin roots = (Returned i, roots') /\
    findMinPriority roots = Returned p /\
    findMinPassengerId roots = Returned i /\
    heap_inv roots' /\
    heap_elems roots ≡ₚ (p, i) :: heap_elems roots' /\
    Forall (fun e => p <= e.1) (heap_elems roots).
Proof.
  intros Hgood Hne. destruct roots as [|r roots]; [discriminate|].
  destruct (findMinNodeIterator_spec r roots) as (m & Hm & Hmin).
  unfold extractMin, findMinPriority, findMinPassengerId, deref.
  rewrite findMinNodeIterator_end, Hm. simpl isEmpty. cbn iota. simpl default.
  assert (good_root m) as Hgm.
  { eapply Forall_lookup_1; [exact Hgood|exact Hm]. }
  pose proof (delete_Permutation _ _ _ Hm) as Hdel.
  assert (Forall good_root (delete (findMinNodeIterator (r :: roots)) (r :: roots)))
    as Hgd.
  { rewrite Hdel in Hgood. by apply Forall_cons in Hgood as [_ ?]. }
  destruct m as [|p i d c s]; [contradiction|].
  destruct Hgm as (-> & Hbc & Hoc).
  destruct (detach_children_spec c [] p d Hbc Hoc) as [Hgc Hpc]; [done|].
  destruct (mergeRootLists_spec _ _ Hgd Hgc) as [Hgm Hpm].
  destruct (consolidate_spec _ Hgm) as [Hinv Hpcons].
  exists p, i. eexists. repeat split; try done.
  - apply Hinv.
  - apply Hinv.
  - rewrite Hpcons, Hpm, Hpc, (heap_elems_perm _ _ Hdel), heap_elems_cons.
    simpl. constructor. rewrite app_nil_r. apply Permutation_app_comm.
  - by apply (heap_min_bound (Node p i d c nullptr)).
Qed.

Lemma extractMin_empty roots :
  isEmpty roots = true ->
  extractMin roots = (Thrown "Cannot extract from empty heap", roots).
Proof. by destruct roots. Qed.

(** *** Reachable heaps satisfy the invariant *)

Lemma heap_inv_empty : heap_inv empty.
Proof. split; constructor. Qed.

Lemma good_roots_nonempty roots :
  Forall good_root roots -> heap_elems roots = [] -> roots = [].
Proof.
  destruct roots as [|r roots]; [done|]. intros Hg.
  apply Forall_cons in Hg as [Hr _]. by destruct r.
Qed.

Lemma reachable_inv h : reachable h -> heap_inv h.
Proof.
  induction 1 as [|p i h _ IH|h i h' _ IH Hex].
  - apply heap_inv_empty.
  - apply insert_spec, IH.
  - destruct (isEmpty h) eqn:Hemp.
    + rewrite extractMin_empty in Hex by done. discriminate.
    + destruct (extractMin_spec h (proj1 IH) Hemp)
        as (p & j & h'' & Heq & _ & _ & Hinv & _).
      congruence.
Qed.

(** *** The drain loop *)

Lemma drain_loop_spec n : forall roots fuel waitlist,
  heap_inv roots -> length (heap_elems roots) = n -> (n < fuel)%nat ->
  exists out,
    drain_loop fuel roots waitlist = Some (Returned (waitlist ++ out), []) /\
    out ≡ₚ heap_elems roots /\
    StronglySorted prio_le out.
Proof.
  induction n as [|n IH]; intros roots fuel waitlist [Hgood _] Hlen Hfuel.
  - destruct fuel as [|fuel]; [lia|].
    rewrite (good_roots_nonempty roots Hgood) by by apply nil_length_inv.
    exists []. rewrite app_nil_r. repeat split; [done|constructor].
  - destruct fuel as [|fuel]; [lia|].
    destruct (isEmpty roots) eqn:Hemp.
    { destruct roots; [discriminate Hlen|discriminate Hemp]. }
    destruct (extractMin_spec roots Hgood Hemp)
      as (p & i & roots' & Hex & Hp & _ & Hinv & Hperm & Hmin).
    cbn [drain_loop]. rewrite Hemp, Hp, Hex.
    destruct (IH roots' fuel (waitlist ++ [(p, i)]) Hinv)
      as (out & Hout & Hperm' & Hsorted); [|lia|].
    { rewrite Hperm in Hlen. simpl in Hlen. lia. }
    exists ((p, i) :: out). rewrite Hout, <- app_assoc. simpl.
    repeat split; [by rewrite Hperm, Hperm'|].
    constructor; [done|].
    rewrite Hperm in Hmin. apply Forall_cons in Hmin as [_ Hmin].
    by rewrite Hperm'.
Qed.

(** *** Heaps built by inserts only *)

Lemma insert_all_from l : forall h,
  heap_inv h ->
  heap_inv (foldl (fun h e => insert e.1 e.2 h) h l) /\
  heap_elems (foldl (fun h e => insert e.1 e.2 h) h l)
    ≡ₚ heap_elems h ++ l.
Proof.
  induction l as [|[p i] l IH]; intros h Hinv; cbn [foldl].
  - split; [done|]. by rewrite app_nil_r.
  - destruct (insert_spec p i h (proj1 Hinv)) as [Hinv' Hperm].
    destruct (IH (insert p i h) Hinv') as (Hinv'' & Hperm').
    split; [done|]. rewrite Hperm', Hperm. simpl.
    by rewrite <- Permutation_middle.
Qed.

Lemma insert_all_spec l :
  heap_inv (insert_all l) /\ heap_elems (insert_all l) ≡ₚ l.
Proof. apply (insert_all_from l empty heap_inv_empty). Qed.

(** *** Structure of binomial chains *)

Lemma binomial_chain_degrees c : forall k,
  is_binomial_chain k c -> map degree (sibling_chain c) = rev (seq 0 k).
Proof.
  induction c as [|p i d c _ s IHs]; intros [|k] Hb; try done.
  destruct Hb as (-> & _ & Hs).
  cbn [sibling_chain map degree]. rewrite (IHs k Hs), seq_S, rev_app_distr.
  reflexivity.
Qed.

Lemma binomial_chain_count c : forall k,
  is_binomial_chain k c -> S (node_count c) = (2 ^ k)%nat.
Proof.
  induction c as [|p i d c IHc s IHs]; intros [|k] Hb; try done.
  destruct Hb as (-> & Hc & Hs). cbn [node_count].
  specialize (IHc k Hc). specialize (IHs k Hs).
  rewrite Nat.pow_succ_r'. lia.
Qed.

Lemma binomial_chain_nodes c : forall k,
  is_binomial_chain k c ->
  Forall (fun n => map degree (children n) = rev (seq 0 (degree n)))
         (all_nodes c).
Proof.
  induction c as [|p i d c IHc s IHs]; intros [|k] Hb; try done.
  destruct Hb as (-> & Hc & Hs). cbn [all_nodes].
  constructor; [by apply binomial_chain_degrees|].
  apply Forall_app. split; [by eapply IHc|by eapply IHs].
Qed.

Lemma heap_ordered_nodes c : forall b,
  heap_ordered_from b c ->
  Forall (fun n => b <= priority n /\
            Forall (fun m => priority n <= priority m) (descendants n))
         (all_nodes c).
Proof.
  induction c as [|p i d c IHc s IHs]; intros b Ho; [constructor|].
  destruct Ho as (Hb & Hc & Hs). cbn [all_nodes].
  constructor; [|apply Forall_app; split].
  - split; [done|]. unfold descendants. simpl.
    eapply Forall_impl; [by apply IHc|]. by intros n [? _].
  - eapply Forall_impl; [by apply IHc|]. simpl. intros n [? ?].
    split; [lia|done].
  - by apply IHs.
Qed.

(** ** The claims about the heap *)

(** C1. On the heap built by any sequence of [insert] calls, the drain
    ([getWaitlistOrdered_destructive]) terminates within [getSize] + 1 loop
    tests, returns a sequence of [(priority, passengerId)] pairs that is
    non-decreasing in priority and as long as [getSize] said before the
    call, and leaves the heap empty. *)
Theorem drain_after_inserts (l : list (PriorityType * PassengerIdType)) (fuel : nat) :
  getSize (insert_all l) < Z.of_nat fuel ->
  exists out h',
    getWaitlistOrdered_destructive fuel (insert_all l) = Some (Returned out, h') /\
    StronglySorted prio_le out /\
    Z.of_nat (length out) = getSize (insert_all l) /\
    isEmpty h' = true.
Proof.
  intros Hfuel. destruct (insert_all_spec l) as [Hinv _].
  rewrite getSize_elems in Hfuel.
  destruct (drain_loop_spec _ (insert_all l) fuel [] Hinv eq_refl)
    as (out & Hout & Hperm & Hsorted); [lia|].
  exists out, []. split; [done|]. split; [done|]. split; [|done].
  by rewrite getSize_elems, Hperm.
Qed.

Lemma drain_after_inserts_witness :
  exists out h',
    getWaitlistOrdered_destructive 4
      (insert_all [(7, 70); (2, 20); (5, 50)]) = Some (Returned out, h') /\
    StronglySorted prio_le out /\
    Z.of_nat (length out) = getSize (insert_all [(7, 70); (2, 20); (5, 50)]) /\
    isEmpty h' = true.
Proof.
  apply (drain_after_inserts [(7, 70); (2, 20); (5, 50)] 4).
  vm_compute. reflexivity.
Defined.

(** C2. In every heap reachable from the empty heap by [insert] and
    [extractMin] calls, every node of every tree has a priority less than or
    equal to the priority of each of its descendants. *)
Theorem heap_order_invariant (h : BinomialHeap.t) :
  reachable h ->
  Forall (fun n => Forall (fun m => priority n <= priority m) (descendants n))
         (heap_nodes h).
Proof.
  intros Hr. destruct (reachable_inv h Hr) as [Hgood _]. clear Hr.
  unfold heap_nodes. induction Hgood as [|r roots Hr' _ IH]; [constructor|].
  cbn [map concat]. apply Forall_app. split; [|exact IH].
  destruct r as [|p i d c s]; [contradiction|]. destruct Hr' as (_ & _ & Ho).
  pose proof (heap_ordered_nodes c p Ho) as Hnodes.
  constructor.
  - unfold descendants. simpl. eapply Forall_impl; [exact Hnodes|].
    by intros n [? _].
  - unfold descendants at 1. simpl. eapply Forall_impl; [exact Hnodes|].
    by intros n [_ ?].
Qed.

Lemma heap_order_invariant_witness :
  Forall (fun n => Forall (fun m => priority n <= priority m) (descendants n))
         (heap_nodes (insert 4 40 (insert 1 10 (insert 3 30 empty)))).
Proof.
  apply heap_order_invariant. repeat constructor.
Defined.

(** C3. In every heap reached by [insert] and [extractMin] calls the root
    degrees are strictly ascending (hence pairwise distinct), every node of
    degree [d] has exactly [d] children, whose degrees are [0], ..., [d-1]
    each once, and a root of degree [d] heads a tree of [2^d] nodes. *)
Theorem binomial_structure_invariant (h : BinomialHeap.t) :
  reachable h ->
  StronglySorted lt (map degree h) /\
  Forall (fun n => length (children n) = degree n /\
                   map degree (children n) ≡ₚ seq 0 (degree n))
         (heap_nodes h) /\
  Forall (fun r => length (tree_elems r) = (2 ^ degree r)%nat) h.
Proof.
  intros Hr. destruct (reachable_inv h Hr) as [Hgood Hsorted].
  split; [done|]. clear Hsorted Hr. unfold heap_nodes.
  assert (forall n, map degree (children n) = rev (seq 0 (degree n)) ->
            length (children n) = degree n /\
            map degree (children n) ≡ₚ seq 0 (degree n)) as Hconv.
  { intros n Heq. split.
    - rewrite <- (length_map degree), Heq, length_rev. apply length_seq.
    - rewrite Heq. symmetry. apply Permutation_rev. }
  induction Hgood as [|r roots Hr' _ [IH1 IH2]]; [by split|].
  destruct r as [|p i d c s]; [contradiction|]. destruct Hr' as (_ & Hb & _).
  split.
  - cbn [map concat]. apply Forall_app. split; [|exact IH1].
    constructor.
    + apply Hconv. by apply binomial_chain_degrees.
    + eapply Forall_impl; [by eapply binomial_chain_nodes|]. exact Hconv.
  - constructor; [|exact IH2]. simpl.
    rewrite node_elems_length. by apply binomial_chain_count.
Qed.

Lemma binomial_structure_invariant_witness :
  let h := insert 4 40 (insert 1 10 (insert 3 30 empty)) in
  StronglySorted lt (map degree h) /\
  Forall (fun n => length (children n) = degree n /\
                   map degree (children n) ≡ₚ seq 0 (degree n))
         (heap_nodes h) /\
  Forall (fun r => length (tree_elems r) = (2 ^ degree r)%nat) h.
Proof.
  apply binomial_structure_invariant. repeat constructor.
Defined.

Lemma run_size ops : forall h0 h,
  heap_inv h0 -> run ops h0 = Some h ->
  getSize h + Z.of_nat (count_extracts ops)
    = getSize h0 + Z.of_nat (count_inserts ops).
Proof.
  induction ops as [|[p i|] ops IH]; intros h0 h Hinv Hrun; cbn [run] in Hrun.
  - injection Hrun as ->. reflexivity.
  - destruct (insert_spec p i h0 (proj1 Hinv)) as [Hinv' Hperm].
    specialize (IH _ _ Hinv' Hrun).
    change (count_inserts (Insert p i :: ops)) with (S (count_inserts ops)).
    change (count_extracts (Insert p i :: ops)) with (count_extracts ops).
    rewrite !getSize_elems in *. rewrite Hperm in IH. simpl in IH. lia.
  - destruct (isEmpty h0) eqn:Hemp.
    { by rewrite extractMin_empty in Hrun. }
    destruct (extractMin_spec h0 (proj1 Hinv) Hemp)
      as (p & i & h' & Hex & _ & _ & Hinv' & Hperm & _).
    rewrite Hex in Hrun. specialize (IH _ _ Hinv' Hrun).
    change (count_inserts (ExtractMin :: ops)) with (count_inserts ops).
    change (count_extracts (ExtractMin :: ops)) with (S (count_extracts ops)).
    rewrite !getSize_elems in *. rewrite Hperm. simpl. lia.
Qed.

(** C4. Starting from the empty heap, after any interleaving of N [insert]
    and M [extractMin] calls none of which hit an empty heap, [getSize]
    returns N - M. *)
Theorem size_conservation (ops : list op) (h : BinomialHeap.t) :
  run ops empty = Some h ->
  getSize h = Z.of_nat (count_inserts ops) - Z.of_nat (count_extracts ops).
Proof.
  intros Hrun. pose proof (run_size ops empty h heap_inv_empty Hrun) as Hsz.
  change (getSize empty) with 0 in Hsz. lia.
Qed.

Lemma size_conservation_witness :
  exists h,
    run [Insert 5 50; Insert 2 20; ExtractMin; Insert 9 90; ExtractMin] empty
      = Some h /\
    getSize h = 3 - 2.
Proof.
  eexists. split; [vm_compute; reflexivity|].
  apply (size_conservation
           [Insert 5 50; Insert 2 20; ExtractMin; Insert 9 90; ExtractMin]).
  vm_compute. reflexivity.
Defined.

(** C5. [findMinPriority], [findMinPassengerId] and [extractMin] throw
    exactly when the heap has no roots; an [extractMin] that throws leaves
    the heap as it was. The two [find] methods are [const]: as functions of
    the heap alone they have no heap to return, so a heap observed before a
    call is the heap observed after it. *)
Theorem empty_heap_errors (roots : BinomialHeap.t) :
  is_thrown (findMinPriority roots) = isEmpty roots /\
  is_thrown (findMinPassengerId roots) = isEmpty roots /\
  is_thrown (extractMin roots).1 = isEmpty roots /\
  (isEmpty roots = true -> (extractMin roots).2 = roots).
Proof.
  unfold findMinPriority, findMinPassengerId, extractMin.
  rewrite findMinNodeIterator_end. destruct (isEmpty roots); by repeat split.
Qed.

End HeapProofs.

(** ** Proofs about the flight ledger *)

Module FlightProofs.
Import Flight FlightInv.
Import HeapInv HeapProofs.

Lemma std_find_notin v x : x ∉ v -> std_find v x = length v.
Proof.
  induction v as [|y v IH]; [done|]. intros Hnotin.
  apply not_elem_of_cons in Hnotin as [Hne Hnotin]. simpl.
  destruct (y =? x) eqn:Heq; [apply Z.eqb_eq in Heq; congruence|].
  by rewrite IH.
Qed.

Lemma std_find_in v x :
  x ∈ v ->
  exists l1 l2, v = l1 ++ x :: l2 /\ (x ∉ l1) /\ std_find v x = length l1.
Proof.
  induction v as [|y v IH]; intros Hin; [by apply elem_of_nil in Hin|].
  simpl. destruct (y =? x) eqn:Heq.
  - apply Z.eqb_eq in Heq as ->. exists [], v. repeat split.
    apply not_elem_of_nil.
  - apply Z.eqb_neq in Heq. apply elem_of_cons in Hin as [->|Hin]; [done|].
    destruct (IH Hin) as (l1 & l2 & -> & Hnotin & Hfind).
    exists (y :: l1), l2. repeat split.
    + apply not_elem_of_cons. by split.
    + simpl. by rewrite Hfind.
Qed.

Lemma std_find_end v x :
  (std_find v x =? length v)%nat = bool_decide (x ∉ v).
Proof.
  destruct (decide (x ∈ v)) as [Hin|Hnotin].
  - rewrite bool_decide_eq_false_2 by (intros ?; done).
    destruct (std_find_in v x Hin) as (l1 & l2 & -> & _ & ->).
    apply Nat.eqb_neq. rewrite length_app. simpl. lia.
  - rewrite bool_decide_eq_true_2 by done.
    apply Nat.eqb_eq. by apply std_find_notin.
Qed.

(** The two outcomes of [cancelBooking] on a confirmed passenger. *)
Lemma cancelBooking_found f p :
  heap_inv (waitlistHeap f) -> p ∈ confirmedPassengers f ->
  exists l1 l2 f',
    confirmedPassengers f = l1 ++ p :: l2 /\ (p ∉ l1) /\
    cancelBooking p f = (true, f') /\ capacity f' = capacity f /\
    ((BinomialHeap.isEmpty (waitlistHeap f) = true /\
      confirmedPassengers f' = l1 ++ l2 /\
      waitlistHeap f' = waitlistHeap f)
     \/
     (BinomialHeap.isEmpty (waitlistHeap f) = false /\
      exists prio q,
        BinomialHeap.extractMin (waitlistHeap f) = (Returned q, waitlistHeap f') /\
        heap_inv (waitlistHeap f') /\
        heap_elems (waitlistHeap f) ≡ₚ (prio, q) :: heap_elems (waitlistHeap f') /\
        Forall (fun e => prio <= e.1) (heap_elems (waitlistHeap f)) /\
        confirmedPassengers f' = l1 ++ l2 ++ [q])).
Proof.
  intros Hinv Hin.
  destruct (std_find_in _ _ Hin) as (l1 & l2 & Hconf & Hnotin & Hfind).
  exists l1, l2. unfold cancelBooking. rewrite std_find_end.
  rewrite bool_decide_eq_false_2 by (by intros ?).
  rewrite Hfind, Hconf, delete_middle. cbn [set_confirmed waitlistHeap].
  destruct (BinomialHeap.isEmpty (waitlistHeap f)) eqn:Hemp; cbn [negb].
  - eexists. repeat split; try done. left. by repeat split.
  - destruct (extractMin_spec _ (proj1 Hinv) Hemp)
      as (prio & q & h' & Hex & _ & _ & Hinv' & Hperm & Hmin).
    rewrite Hex. eexists. repeat split; try done. right. split; [done|].
    exists prio, q. cbn. by rewrite <- app_assoc.
Qed.

Lemma addPassenger_confirmed f p prio :
  p ∈ confirmedPassengers f -> addPassenger p prio f = (true, f).
Proof.
  intros Hin. unfold addPassenger. rewrite std_find_end.
  rewrite bool_decide_eq_false_2; [done|]. by intros ?.
Qed.

Lemma cancelBooking_absent f p :
  p ∉ confirmedPassengers f -> cancelBooking p f = (false, f).
Proof.
  intros Hnotin. unfold cancelBooking.
  by rewrite std_find_end, bool_decide_eq_true_2.
Qed.

(** C9. When the passenger is already in the confirmed list, [addPassenger]
    returns [true] (Confirmed) and the flight is left exactly as it was:
    confirmed list, waitlist heap and capacity; so is a repeated call. *)
Theorem addPassenger_idempotent (f : Flight.t)
    (p : PassengerIdType) (prio prio' : PriorityType) :
  p ∈ confirmedPassengers f ->
  addPassenger p prio f = (true, f) /\
  addPassenger p prio' (addPassenger p prio f).2 = (true, f).
Proof.
  intros Hin. rewrite (addPassenger_confirmed f p prio Hin).
  split; [done|]. by apply addPassenger_confirmed.
Qed.

Lemma addPassenger_idempotent_witness :
  addPassenger 2 40 full_flight = (true, full_flight) /\
  addPassenger 2 41 (addPassenger 2 40 full_flight).2 = (true, full_flight).
Proof.
  apply addPassenger_idempotent. vm_compute.
  apply list_elem_of_further, list_elem_of_here.
Defined.

(** C10. When the passenger is not in the confirmed list, [cancelBooking]
    returns [false] (NotFound) and the whole flight (confirmed list,
    waitlist heap, capacity) is exactly as before. *)
Theorem cancelBooking_not_found (f : Flight.t) (p : PassengerIdType) :
  p ∉ confirmedPassengers f ->
  cancelBooking p f = (false, f).
Proof.
  apply cancelBooking_absent.
Qed.

Lemma cancelBooking_not_found_witness :
  cancelBooking 3 full_flight = (false, full_flight).
Proof.
  apply cancelBooking_not_found. vm_compute.
  intros Hin. repeat (apply elem_of_cons in Hin as [Heq|Hin]; [discriminate|]).
  by apply elem_of_nil in Hin.
Defined.

(** *** The invariant of reachable flights *)

Lemma Flight_inv id orig dest cap :
  INT_MIN <= cap <= INT_MAX -> flight_inv (Flight id orig dest cap).
Proof.
  unfold INT_MIN, INT_MAX. intros Hcap. unfold flight_inv, Flight.
  cbn [capacity confirmedPassengers waitlistHeap].
  split; [|split; [|apply heap_inv_empty]].
  - destruct (cap >=? 0) eqn:Hge; unfold INT_MAX; lia.
  - destruct (cap >=? 0) eqn:Hge; simpl; lia.
Qed.

Lemma static_cast_size_t_nonneg c :
  0 <= c <= INT_MAX -> static_cast_size_t c = c.
Proof.
  unfold INT_MAX, static_cast_size_t. intros Hc. apply Z.mod_small. lia.
Qed.

Lemma addPassenger_inv p prio f :
  flight_inv f -> flight_inv (addPassenger p prio f).2.
Proof.
  intros (Hcap & Hlen & Hheap). unfold addPassenger.
  destruct (_ =? _)%nat; [|done].
  rewrite static_cast_size_t_nonneg by done.
  destruct (_ <? _) eqn:Hlt.
  - apply Z.ltb_lt in Hlt. repeat split; try apply Hcap; try apply Hheap.
    cbn. rewrite length_app. simpl. lia.
  - repeat split; try apply Hcap; try done; apply insert_spec, Hheap.
Qed.

Lemma cancelBooking_inv p f :
  flight_inv f -> flight_inv (cancelBooking p f).2.
Proof.
  intros (Hcap & Hlen & Hheap).
  destruct (decide (p ∈ confirmedPassengers f)) as [Hin|Hnotin].
  - destruct (cancelBooking_found f p Hheap Hin)
      as (l1 & l2 & f' & Hconf & _ & -> & Hcap' & Hcase).
    rewrite Hconf, length_app in Hlen. simpl in Hlen.
    unfold flight_inv. cbn [snd]. rewrite Hcap'.
    destruct Hcase as [(_ & -> & ->)|(_ & prio & q & _ & Hinv' & _ & _ & ->)].
    + repeat split; try apply Hcap; try apply Hheap.
      rewrite length_app. lia.
    + repeat split; try apply Hcap; try apply Hinv'.
      rewrite !length_app. simpl. lia.
  - by rewrite cancelBooking_absent.
Qed.

Lemma reachable_flight_inv f : reachable_flight f -> flight_inv f.
Proof.
  induction 1 as [id orig dest cap Hcap|f p prio _ IH|f p _ IH].
  - by apply Flight_inv.
  - by apply addPassenger_inv.
  - by apply cancelBooking_inv.
Qed.

(** C7. In every reachable flight state (the constructor's, and any state
    after [addPassenger] and [cancelBooking] calls) the number of confirmed
    passengers is at most the capacity, which is never negative; a negative
    constructor argument gives capacity zero. *)
Theorem confirmed_within_capacity (f : Flight.t) :
  reachable_flight f ->
  getBookedCount f <= getCapacity f /\
  0 <= getCapacity f /\
  (forall id orig dest cap, cap < 0 -> getCapacity (Flight id orig dest cap) = 0).
Proof.
  intros Hr. destruct (reachable_flight_inv f Hr) as (Hcap & Hlen & _).
  unfold getBookedCount, getCapacity. repeat split; [done|lia|].
  intros id orig dest cap Hneg. simpl.
  destruct (cap >=? 0) eqn:Hge; lia.
Qed.

Lemma confirmed_within_capacity_witness :
  getBookedCount full_flight <= getCapacity full_flight /\
  0 <= getCapacity full_flight /\
  (forall id orig dest cap, cap < 0 -> getCapacity (Flight id orig dest cap) = 0).
Proof.
  apply confirmed_within_capacity.
  repeat apply reachable_addPassenger. apply reachable_Flight. vm_compute.
  split; discriminate.
Defined.

(** *** Duplicate bookings *)

Lemma waitlist_ids_perm f l :
  heap_elems (waitlistHeap f) ≡ₚ l -> waitlist_ids f ≡ₚ map snd l.
Proof. intros Hp. unfold waitlist_ids. by apply Permutation_map. Qed.

Lemma addPassenger_nodup p prio f :
  flight_inv f -> no_duplicate_booking f -> p ∉ waitlist_ids f ->
  no_duplicate_booking (addPassenger p prio f).2.
Proof.
  intros (_ & _ & Hheap) Hnd Hfresh.
  destruct (decide (p ∈ confirmedPassengers f)) as [Hin|Hnotin].
  { by rewrite addPassenger_confirmed. }
  assert (NoDup (p :: confirmedPassengers f ++ waitlist_ids f)) as Hnd'.
  { apply NoDup_cons. split; [|done]. rewrite elem_of_app. tauto. }
  unfold addPassenger. rewrite std_find_end, bool_decide_eq_true_2 by done.
  destruct (_ <? _); unfold no_duplicate_booking; cbn [snd].
  - change (NoDup ((confirmedPassengers f ++ [p]) ++ waitlist_ids f)).
    rewrite <- app_assoc. cbn [app]. by rewrite <- Permutation_middle.
  - destruct (insert_spec prio p (waitlistHeap f) (proj1 Hheap)) as [_ Hperm].
    rewrite (waitlist_ids_perm (set_waitlist _ f) _ Hperm).
    cbn [map snd confirmedPassengers set_waitlist].
    by rewrite <- Permutation_middle.
Qed.

Lemma cancelBooking_nodup p f :
  flight_inv f -> no_duplicate_booking f ->
  no_duplicate_booking (cancelBooking p f).2.
Proof.
  intros (_ & _ & Hheap) Hnd.
  destruct (decide (p ∈ confirmedPassengers f)) as [Hin|Hnotin];
    [|by rewrite cancelBooking_absent].
  destruct (cancelBooking_found f p Hheap Hin)
    as (l1 & l2 & f' & Hconf & _ & -> & _ & Hcase).
  unfold no_duplicate_booking in *. cbn [snd].
  rewrite Hconf, <- app_assoc, <- app_comm_cons in Hnd.
  rewrite <- Permutation_middle in Hnd. apply NoDup_cons in Hnd as [_ Hnd].
  destruct Hcase as [(_ & -> & Hw)|(_ & prio & q & _ & _ & Hperm & _ & ->)].
  - unfold waitlist_ids in *. by rewrite Hw, <- app_assoc.
  - rewrite (waitlist_ids_perm f _ Hperm) in Hnd. cbn [map snd] in Hnd.
    rewrite <- !app_assoc. cbn [app]. exact Hnd.
Qed.

(** C8, as stated, fails: a flight of capacity 1 reached by four calls has
    passenger 2 both confirmed and waitlisted. *)
Lemma duplicate_booking_counterexample :
  reachable_flight double_booked /\
  confirmedPassengers double_booked = [2] /\
  waitlist_ids double_booked = [2] /\
  ~ no_duplicate_booking double_booked.
Proof.
  split; [|split; [|split]].
  - unfold double_booked. apply reachable_cancelBooking.
    repeat apply reachable_addPassenger.
    apply reachable_Flight. vm_compute. split; discriminate.
  - vm_compute. reflexivity.
  - vm_compute. reflexivity.
  - unfold no_duplicate_booking.
    replace (confirmedPassengers double_booked ++ waitlist_ids double_booked)
      with [2; 2] by (vm_compute; reflexivity).
    intros Hnd. apply NoDup_cons in Hnd as [Hnotin _].
    apply Hnotin, list_elem_of_here.
Qed.

(** C8, amended. In every flight state reached by [addPassenger] and
    [cancelBooking] calls in which [addPassenger] is never called with an id
    that is on the waitlist at that moment, each passenger id appears at most
    once across the confirmed list and the waitlist heap together. *)
Theorem no_duplicate_when_fresh (f : Flight.t) :
  reachable_fresh f -> no_duplicate_booking f.
Proof.
  intros Hr. enough (flight_inv f /\ no_duplicate_booking f) by tauto.
  induction Hr as [id orig dest cap Hcap|f p prio _ [IHi IHn] Hfresh
                  |f p _ [IHi IHn]].
  - split; [by apply Flight_inv|]. constructor.
  - split; [by apply addPassenger_inv|by apply addPassenger_nodup].
  - split; [by apply cancelBooking_inv|by apply cancelBooking_nodup].
Qed.

(** Capacity 1: passenger 1 confirmed, 2 and 3 waitlisted, 1 cancels. *)
Lemma no_duplicate_when_fresh_witness :
  no_duplicate_booking
    (cancelBooking 1
       (addPassenger 3 12
          (addPassenger 2 11
             (addPassenger 1 10 (Flight "AI101" "DEL" "BOM" 1)).2).2).2).2.
Proof.
  apply no_duplicate_when_fresh.
  apply fresh_cancelBooking.
  apply fresh_addPassenger;
    [apply fresh_addPassenger;
       [apply fresh_addPassenger;
          [apply fresh_Flight; vm_compute; split; discriminate|]|]|].
  all: vm_compute; intros Hin.
  all: repeat (apply elem_of_cons in Hin as [Heq|Hin]; [discriminate|]).
  all: by apply elem_of_nil in Hin.
Defined.

(** *** Cancellation and promotion *)

Lemma cancel_head_two f p B C D pC pD :
  heap_inv (waitlistHeap f) ->
  confirmedPassengers f = [p; B] ->
  heap_elems (waitlistHeap f) ≡ₚ [(pC, C); (pD, D)] -> pC < pD ->
  exists f',
    cancelBooking p f = (true, f') /\
    confirmedPassengers f' = [B; C] /\
    heap_elems (waitlistHeap f') = [(pD, D)].
Proof.
  intros Hinv Hconf Helems Hlt.
  assert (p ∈ confirmedPassengers f) as Hin.
  { rewrite Hconf. apply list_elem_of_here. }
  destruct (cancelBooking_found f p Hinv Hin)
    as (l1 & l2 & f' & Hsplit & Hnotin & Hcancel & _ & Hcase).
  exists f'. split; [done|].
  assert (l1 = [] /\ l2 = [B]) as [-> ->].
  { rewrite Hconf in Hsplit. destruct l1 as [|x l1].
    - by injection Hsplit as <-.
    - injection Hsplit as -> _. exfalso. apply Hnotin, list_elem_of_here. }
  destruct Hcase as [(Hemp & _ & _)|(_ & prio & q & _ & _ & Hperm & Hmin & ->)].
  { destruct (waitlistHeap f); [|discriminate].
    by apply Permutation_nil_l in Helems. }
  rewrite Helems in Hmin. rewrite Helems in Hperm.
  apply Forall_cons in Hmin as [HleC Hmin].
  apply Forall_cons in Hmin as [HleD _]. simpl in HleC, HleD.
  assert ((prio, q) ∈ [(pC, C); (pD, D)]) as Hmem.
  { rewrite Hperm. apply list_elem_of_here. }
  apply elem_of_cons in Hmem as [Heq|Hmem].
  - injection Heq as -> ->. split; [done|].
    apply Permutation_cons_inv in Hperm.
    by apply Permutation_singleton_l in Hperm.
  - apply list_elem_of_singleton in Hmem. injection Hmem as -> ->. lia.
Qed.

(** C6. [cancelBooking p] on a reachable flight: when [p] is in the
    confirmed list its first occurrence is removed, the result is [true]
    (Cancelled) and, if the waitlist heap is not empty, the entry of least
    priority is extracted from the heap and its passenger appended to the
    confirmed list; when [p] is not in the confirmed list the result is
    [false] (NotFound), whether or not [p] is waitlisted. In particular, with
    capacity 2, [p] and [B] confirmed and [C], [D] waitlisted with [pC < pD],
    cancelling [p] leaves [B; C] confirmed and only [D] waitlisted. *)
Theorem cancelBooking_promotes (f : Flight.t) (p : PassengerIdType) :
  reachable_flight f ->
  (p ∈ confirmedPassengers f ->
   exists l1 l2 f',
     confirmedPassengers f = l1 ++ p :: l2 /\ (p ∉ l1) /\
     cancelBooking p f = (true, f') /\
     ((BinomialHeap.isEmpty (waitlistHeap f) = true /\
       confirmedPassengers f' = l1 ++ l2 /\
       waitlistHeap f' = waitlistHeap f)
      \/
      (BinomialHeap.isEmpty (waitlistHeap f) = false /\
       exists prio q,
         BinomialHeap.extractMin (waitlistHeap f) = (Returned q, waitlistHeap f') /\
         heap_elems (waitlistHeap f) ≡ₚ (prio, q) :: heap_elems (waitlistHeap f') /\
         Forall (fun e => prio <= e.1) (heap_elems (waitlistHeap f)) /\
         confirmedPassengers f' = l1 ++ l2 ++ [q]))) /\
  (p ∉ confirmedPassengers f -> (cancelBooking p f).1 = false) /\
  (forall B C D pC pD,
     capacity f = 2 ->
     confirmedPassengers f = [p; B] ->
     heap_elems (waitlistHeap f) ≡ₚ [(pC, C); (pD, D)] -> pC < pD ->
     exists f',
       cancelBooking p f = (true, f') /\
       confirmedPassengers f' = [B; C] /\
       heap_elems (waitlistHeap f') = [(pD, D)]).
Proof.
  intros Hr. destruct (reachable_flight_inv f Hr) as (_ & _ & Hheap).
  split; [|split].
  - intros Hin.
    destruct (cancelBooking_found f p Hheap Hin)
      as (l1 & l2 & f' & Hsplit & Hnotin & Hcancel & _ & Hcase).
    exists l1, l2, f'. repeat split; try done.
    destruct Hcase as [?|(Hemp & prio & q & Hex & _ & Hperm & Hmin & Hconf)];
      [by left|right].
    split; [done|]. by exists prio, q.
  - intros Hnotin. by rewrite cancelBooking_absent.
  - intros B C D pC pD _. by apply cancel_head_two.
Qed.

Lemma cancelBooking_promotes_witness :
  exists f',
    cancelBooking 1 full_flight = (true, f') /\
    confirmedPassengers f' = [2; 3] /\
    heap_elems (waitlistHeap f') = [(13, 4)].
Proof.
  refine (proj2 (proj2 (cancelBooking_promotes full_flight 1 _)) 2 3 4 12 13 _ _ _ _).
  - repeat apply reachable_addPassenger. apply reachable_Flight.
    vm_compute. split; discriminate.
  - vm_compute. reflexivity.
  - vm_compute. reflexivity.
  - vm_compute. reflexivity.
  - reflexivity.
Defined.

End FlightProofs.

(** ** Further properties of the heap *)

Module HeapExtra.
Import BinomialHeap HeapInv HeapProofs.

(** *** mergeRootLists *)

Lemma mergeRootLists_cons_cons r1 roots r2 other :
  mergeRootLists (r1 :: roots) (r2 :: other) =
  if (degree r1 <=? degree r2)%nat
  then r1 :: mergeRootLists roots (r2 :: other)
  else r2 :: mergeRootLists (r1 :: roots) other.
Proof. reflexivity. Qed.

Lemma mergeRootLists_nil_r roots : mergeRootLists roots [] = roots.
Proof. by destruct roots. Qed.

(** X1. [mergeRootLists] keeps exactly the roots of the two lists, and when
    both lists are in non-decreasing degree order so is the merged list. *)
Theorem mergeRootLists_ascending (roots other : BinomialHeap.t) :
  StronglySorted le (map degree roots) ->
  StronglySorted le (map degree other) ->
  StronglySorted le (map degree (mergeRootLists roots other)) /\
  mergeRootLists roots other ≡ₚ roots ++ other.
Proof.
  intros Hr Ho. split; [|apply mergeRootLists_perm].
  revert other Ho. induction roots as [|r1 roots IH]; intros other Ho; [done|].
  induction other as [|r2 other IHo]; [by rewrite mergeRootLists_nil_r|].
  rewrite mergeRootLists_cons_cons.
  cbn [map] in Hr, Ho.
  apply StronglySorted_inv in Hr as [Hr Hr1].
  apply StronglySorted_inv in Ho as [Ho Ho2].
  rewrite List.Forall_map in Hr1. rewrite List.Forall_map in Ho2.
  destruct (degree r1 <=? degree r2)%nat eqn:Hle.
  - apply Nat.leb_le in Hle. cbn [map]. constructor.
    + apply IH; [done|]. cbn [map]. constructor; [done|].
      by rewrite List.Forall_map.
    + rewrite List.Forall_map, mergeRootLists_perm.
      apply Forall_app. split; [done|]. constructor; [done|].
      eapply Forall_impl; [exact Ho2|]. simpl. lia.
  - apply Nat.leb_gt in Hle. cbn [map]. constructor.
    + by apply IHo.
    + rewrite List.Forall_map, mergeRootLists_perm.
      apply Forall_app. split; [|done]. constructor; [lia|].
      eapply Forall_impl; [exact Hr1|]. simpl. lia.
Qed.

Lemma mergeRootLists_ascending_witness :
  let roots := [new_node 3 30; Node 1 10 1 (new_node 2 20) nullptr] in
  let other := [new_node 5 50] in
  StronglySorted le (map degree (mergeRootLists roots other)) /\
  mergeRootLists roots other ≡ₚ roots ++ other.
Proof.
  apply mergeRootLists_ascending; vm_compute; repeat constructor.
Defined.

(** *** insert, findMin and extractMin on reachable heaps *)

(** X2. On a reachable heap [insert] adds the new entry and nothing else:
    the stored entries are the old ones plus [(priority, passengerId)], even
    when that id is already stored, and [getSize] grows by one. *)
Theorem insert_adds_entry (h : BinomialHeap.t)
    (p : PriorityType) (i : PassengerIdType) :
  reachable h ->
  heap_elems (insert p i h) ≡ₚ (p, i) :: heap_elems h /\
  getSize (insert p i h) = getSize h + 1.
Proof.
  intros Hr. destruct (reachable_inv h Hr) as [Hgood _].
  destruct (insert_spec p i h Hgood) as [_ Hperm]. split; [done|].
  rewrite !getSize_elems, Hperm. simpl. lia.
Qed.

Lemma insert_adds_entry_witness :
  heap_elems (insert 2 20 (insert 2 20 empty))
    ≡ₚ (2, 20) :: heap_elems (insert 2 20 empty) /\
  getSize (insert 2 20 (insert 2 20 empty)) = getSize (insert 2 20 empty) + 1.
Proof. apply insert_adds_entry. repeat constructor. Defined.

(** X3. On a non-empty reachable heap [findMinPriority] and
    [findMinPassengerId] return the two halves of one stored entry, and no
    stored entry has a smaller priority. *)
Theorem findMin_is_minimum (h : BinomialHeap.t) :
  reachable h -> isEmpty h = false ->
  exists p i,
    findMinPriority h = Returned p /\
    findMinPassengerId h = Returned i /\
    (p, i) ∈ heap_elems h /\
    Forall (fun e => p <= e.1) (heap_elems h).
Proof.
  intros Hr Hne. destruct (reachable_inv h Hr) as [Hgood _].
  destruct (extractMin_spec h Hgood Hne)
    as (p & i & h' & _ & Hp & Hi & _ & Hperm & Hmin).
  exists p, i. repeat split; try done. rewrite Hperm. apply list_elem_of_here.
Qed.

Lemma findMin_is_minimum_witness :
  exists p i,
    findMinPriority (insert_all [(7, 70); (2, 20); (5, 50)]) = Returned p /\
    findMinPassengerId (insert_all [(7, 70); (2, 20); (5, 50)]) = Returned i /\
    (p, i) ∈ heap_elems (insert_all [(7, 70); (2, 20); (5, 50)]) /\
    Forall (fun e => p <= e.1) (heap_elems (insert_all [(7, 70); (2, 20); (5, 50)])).
Proof.
  apply findMin_is_minimum; [|reflexivity]. repeat constructor.
Defined.

(** X4. On a non-empty reachable heap [extractMin] returns the passenger
    that [findMinPassengerId] reports, removes exactly that entry (with the
    priority [findMinPriority] reports) and leaves a reachable heap one
    entry smaller. *)
Theorem extractMin_removes_min (h : BinomialHeap.t) :
  reachable h -> isEmpty h = false ->
  exists p i h',
    extractMin h = (Returned i, h') /\
    findMinPriority h = Returned p /\
    findMinPassengerId h = Returned i /\
    heap_elems h ≡ₚ (p, i) :: heap_elems h' /\
    getSize h' = getSize h - 1 /\
    reachable h'.
Proof.
  intros Hr Hne. destruct (reachable_inv h Hr) as [Hgood _].
  destruct (extractMin_spec h Hgood Hne)
    as (p & i & h' & Hex & Hp & Hi & _ & Hperm & _).
  exists p, i, h'. repeat split; try done.
  - rewrite !getSize_elems, Hperm. simpl. lia.
  - by eapply reachable_extractMin.
Qed.

Lemma extractMin_removes_min_witness :
  exists p i h',
    extractMin (insert_all [(7, 70); (2, 20); (5, 50)]) = (Returned i, h') /\
    findMinPriority (insert_all [(7, 70); (2, 20); (5, 50)]) = Returned p /\
    findMinPassengerId (insert_all [(7, 70); (2, 20); (5, 50)]) = Returned i /\
    heap_elems (insert_all [(7, 70); (2, 20); (5, 50)]) ≡ₚ (p, i) :: heap_elems h' /\
    getSize h' = getSize (insert_all [(7, 70); (2, 20); (5, 50)]) - 1 /\
    reachable h'.
Proof.
  apply extractMin_removes_min; [|reflexivity]. repeat constructor.
Defined.

(** *** The tie-break of findMinNodeIterator *)

Lemma findMin_scan_first rest : forall pre it min_it min_node,
  it = length pre -> (min_it < it)%nat ->
  pre !! min_it = Some min_node ->
  Forall (fun r => priority min_node <= priority r) pre ->
  Forall (fun r => priority min_node < priority r) (take min_it pre) ->
  exists m,
    (pre ++ rest) !! findMin_scan rest it min_it min_node = Some m /\
    Forall (fun r => priority m <= priority r) (pre ++ rest) /\
    Forall (fun r => priority m < priority r)
           (take (findMin_scan rest it min_it min_node) (pre ++ rest)).
Proof.
  induction rest as [|n rest IH];
    intros pre it min_it min_node -> Hlt Hmin Hall Hbefore.
  - exists min_node. rewrite app_nil_r. by repeat split.
  - cbn [findMin_scan]. rewrite cons_middle, app_assoc.
    destruct (priority n <? priority min_node) eqn:Hcmp.
    + apply Z.ltb_lt in Hcmp. apply (IH (pre ++ [n])).
      * rewrite length_app. simpl. lia.
      * lia.
      * by rewrite list_lookup_middle.
      * apply Forall_app. split; [|by repeat constructor].
        eapply Forall_impl; [exact Hall|]. simpl. lia.
      * rewrite take_app_length.
        eapply Forall_impl; [exact Hall|]. simpl. lia.
    + apply Z.ltb_ge in Hcmp. apply (IH (pre ++ [n])).
      * rewrite length_app. simpl. lia.
      * lia.
      * by rewrite lookup_app_l by lia.
      * apply Forall_app. split; [done|]. by repeat constructor.
      * by rewrite take_app_le by lia.
Qed.

(** X5. On a non-empty root list [findMinNodeIterator] points at a root of
    least priority, and among roots of equal least priority at the first
    one: every root before it has a strictly larger priority. *)
Theorem findMinNodeIterator_first_minimum (roots : BinomialHeap.t) :
  isEmpty roots = false ->
  exists m,
    roots !! findMinNodeIterator roots = Some m /\
    Forall (fun r => priority m <= priority r) roots /\
    Forall (fun r => priority m < priority r)
           (take (findMinNodeIterator roots) roots).
Proof.
  destruct roots as [|r roots]; [discriminate|]. intros _.
  apply (findMin_scan_first roots [r] 1%nat 0%nat r);
    [done|lia|done|repeat constructor; lia|constructor].
Qed.

Lemma findMinNodeIterator_first_minimum_witness :
  exists m,
    [new_node 4 40; new_node 2 20; new_node 2 21] !!
      findMinNodeIterator [new_node 4 40; new_node 2 20; new_node 2 21] = Some m /\
    Forall (fun r => priority m <= priority r)
           [new_node 4 40; new_node 2 20; new_node 2 21] /\
    Forall (fun r => priority m < priority r)
           (take (findMinNodeIterator [new_node 4 40; new_node 2 20; new_node 2 21])
                 [new_node 4 40; new_node 2 20; new_node 2 21]).
Proof. apply findMinNodeIterator_first_minimum. reflexivity. Defined.

(** *** Size and number of roots *)

Lemma good_root_size r :
  good_root r -> length (tree_elems r) = (2 ^ degree r)%nat.
Proof.
  destruct r as [|p i d c s]; [done|]. intros (_ & Hb & _). simpl.
  rewrite node_elems_length. by apply binomial_chain_count.
Qed.

Lemma heap_elems_length_sum roots :
  Forall good_root roots ->
  Z.of_nat (length (heap_elems roots)) = sum_pow_degrees roots.
Proof.
  induction 1 as [|r roots Hr _ IH]; [done|].
  rewrite heap_elems_cons, length_app, Nat2Z.inj_add, IH, (good_root_size r Hr).
  cbn [sum_pow_degrees foldr].
  by rewrite Nat2Z.inj_pow.
Qed.

(** X6. On a reachable heap the traversal count of [getSize] is the sum of
    [2 ^ degree] over the roots. *)
Theorem getSize_sum_pow_degrees (h : BinomialHeap.t) :
  reachable h -> getSize h = sum_pow_degrees h.
Proof.
  intros Hr. destruct (reachable_inv h Hr) as [Hgood _].
  rewrite getSize_elems. by apply heap_elems_length_sum.
Qed.

Lemma getSize_sum_pow_degrees_witness :
  getSize (insert_all [(7, 70); (2, 20); (5, 50)])
  = sum_pow_degrees (insert_all [(7, 70); (2, 20); (5, 50)]).
Proof. apply getSize_sum_pow_degrees. repeat constructor. Defined.

Lemma ascending_degrees_sum (ds : list nat) : forall m,
  StronglySorted lt ds -> Forall (fun d => (m <= d)%nat) ds ->
  2 ^ Z.of_nat (m + length ds)
    <= foldr (fun d acc => 2 ^ Z.of_nat d + acc) 0 ds + 2 ^ Z.of_nat m.
Proof.
  induction ds as [|d ds IH]; intros m Hs Hm.
  - simpl. rewrite Nat.add_0_r. lia.
  - apply StronglySorted_inv in Hs as [Hs Hlt].
    apply Forall_cons in Hm as [Hmd _].
    specialize (IH (S d) Hs).
    assert (Forall (fun x => (S d <= x)%nat) ds) as Hds.
    { eapply Forall_impl; [exact Hlt|]. simpl. lia. }
    specialize (IH Hds). cbn [foldr length].
    set (rest := foldr (fun d acc => 2 ^ Z.of_nat d + acc) 0 ds) in *.
    replace (Z.of_nat (m + S (length ds)))
      with (Z.of_nat (S m) + Z.of_nat (length ds)) by lia.
    replace (Z.of_nat (S d + length ds))
      with (Z.of_nat (S d) + Z.of_nat (length ds)) in IH by lia.
    rewrite Z.pow_add_r in * by lia.
    assert (0 < 2 ^ Z.of_nat (length ds)) as Hpos by (apply Z.pow_pos_nonneg; lia).
    assert (2 ^ Z.of_nat (S m) <= 2 ^ Z.of_nat (S d)) as Hmono
      by (apply Z.pow_le_mono_r; lia).
    assert (2 ^ Z.of_nat m <= 2 ^ Z.of_nat d) as Hmono'
      by (apply Z.pow_le_mono_r; lia).
    assert (2 ^ Z.of_nat (S d) = 2 * 2 ^ Z.of_nat d) as Hd
      by (rewrite Nat2Z.inj_succ, Z.pow_succ_r; lia).
    assert (2 ^ Z.of_nat (S m) = 2 * 2 ^ Z.of_nat m) as Hm'
      by (rewrite Nat2Z.inj_succ, Z.pow_succ_r; lia).
    nia.
Qed.

(** X7. A reachable heap holding [n] entries has at most [log2 (n + 1)]
    roots: [2 ^ (number of roots) <= n + 1]. *)
Theorem root_count_bound (h : BinomialHeap.t) :
  reachable h -> 2 ^ Z.of_nat (length h) <= getSize h + 1.
Proof.
  intros Hr. destruct (reachable_inv h Hr) as [Hgood Hsorted].
  rewrite getSize_elems, (heap_elems_length_sum h Hgood).
  pose proof (ascending_degrees_sum (map degree h) 0 Hsorted) as Hsum.
  rewrite length_map in Hsum. simpl in Hsum.
  assert (foldr (fun d acc => 2 ^ Z.of_nat d + acc) 0 (map degree h)
          = sum_pow_degrees h) as <-.
  { clear. induction h as [|r h IH]; [done|]. simpl. by rewrite IH. }
  apply Hsum. apply List.Forall_map, Forall_forall. intros; lia.
Qed.

Lemma root_count_bound_witness :
  2 ^ Z.of_nat (length (insert_all [(7, 70); (2, 20); (5, 50)]))
  <= getSize (insert_all [(7, 70); (2, 20); (5, 50)]) + 1.
Proof. apply root_count_bound. repeat constructor. Defined.

(** *** The traversal of clear and collectNodes *)

Lemma push_nonnull_nodes p q :
  concat (map all_nodes (push_nonnull p q))
  = all_nodes p ++ concat (map all_nodes q).
Proof. by destruct p. Qed.

Lemma push_nonnull_Forall p q :
  Forall (fun n => is_null n = false) q ->
  Forall (fun n => is_null n = false) (push_nonnull p q).
Proof. intros Hq. destruct p; [done|]. by constructor. Qed.

Lemma collect_loop_spec q nodes_list :
  Forall (fun n => is_null n = false) q ->
  exists visited,
    collect_loop q nodes_list = nodes_list ++ visited /\
    visited ≡ₚ concat (map all_nodes q).
Proof.
  funelim (collect_loop q nodes_list); simp collect_loop; intros Hq.
  - exists []. by rewrite app_nil_r.
  - apply Forall_cons in Hq as [Hcur Hq].
    destruct H as (visited & -> & Hperm).
    { by do 2 apply push_nonnull_Forall. }
    exists (current :: visited). split; [by rewrite <- app_assoc|].
    rewrite Hperm, !push_nonnull_nodes.
    destruct current as [|p i d c s]; [discriminate|].
    cbn [map concat all_nodes sibling child]. constructor.
    rewrite !app_assoc. apply Permutation_app_tail, Permutation_app_comm.
Qed.

Lemma all_nodes_length n : length (all_nodes n) = node_count n.
Proof.
  induction n as [|p i d c IHc s IHs]; [done|].
  cbn [all_nodes node_count length]. rewrite length_app. lia.
Qed.

(** X8. [collectNodes(node, nodes_list)] only appends to [nodes_list], and
    what it appends is every node reachable from [node] through [child] and
    [sibling] links, each once; for a null [node] nothing is appended. *)
Theorem collectNodes_appends_all (node : BinomialHeapNode)
    (nodes_list : list BinomialHeapNode) :
  exists visited,
    collectNodes node nodes_list = nodes_list ++ visited /\
    visited ≡ₚ all_nodes node /\
    length visited = node_count node.
Proof.
  unfold collectNodes. destruct node as [|p i d c s].
  - exists []. by rewrite app_nil_r.
  - destruct (collect_loop_spec [Node p i d c s] nodes_list)
      as (visited & Heq & Hperm); [by repeat constructor|].
    cbn [map concat] in Hperm. rewrite app_nil_r in Hperm.
    exists visited. repeat split; [done|done|].
    by rewrite Hperm, all_nodes_length.
Qed.

Lemma queue_roots_good roots : Forall good_root roots -> queue_roots roots = roots.
Proof.
  induction 1 as [|r roots Hr _ IH]; [done|].
  cbn [queue_roots]. by rewrite (good_root_not_null r Hr), IH.
Qed.

Lemma heap_nodes_all_nodes roots :
  Forall good_root roots -> concat (map all_nodes roots) = heap_nodes roots.
Proof.
  unfold heap_nodes. induction 1 as [|r roots Hr _ IH]; [done|].
  cbn [map concat]. rewrite IH.
  destruct r as [|p i d c s]; [done|]. destruct Hr as (-> & _).
  unfold descendants. cbn [all_nodes child]. by rewrite app_nil_r.
Qed.

Lemma heap_nodes_length roots :
  Forall good_root roots ->
  length (heap_nodes roots) = length (heap_elems roots).
Proof.
  unfold heap_nodes, heap_elems. induction 1 as [|r roots Hr _ IH]; [done|].
  cbn [map concat]. rewrite !length_app, IH. f_equal.
  destruct r as [|p i d c s]; [done|]. unfold descendants. simpl.
  by rewrite all_nodes_length, node_elems_length.
Qed.

(** X9. [clear] on a reachable heap collects for release every node of the
    forest exactly once (as many nodes as [getSize] counts), and the heap is
    empty afterwards. *)
Theorem clear_releases_every_node (h : BinomialHeap.t) :
  reachable h ->
  clear_nodes_to_delete h ≡ₚ heap_nodes h /\
  Z.of_nat (length (clear_nodes_to_delete h)) = getSize h /\
  isEmpty (clear h) = true /\
  getSize (clear h) = 0.
Proof.
  intros Hr. destruct (reachable_inv h Hr) as [Hgood _].
  unfold clear_nodes_to_delete. rewrite (queue_roots_good h Hgood).
  destruct (collect_loop_spec (rev h) []) as (visited & -> & Hperm).
  { apply Forall_rev. eapply Forall_impl; [exact Hgood|].
    apply good_root_not_null. }
  assert (visited ≡ₚ heap_nodes h) as Hv.
  { rewrite Hperm, <- (heap_nodes_all_nodes h Hgood).
    clear. induction h as [|r h IH]; [done|].
    cbn [rev map concat]. rewrite map_app, concat_app. cbn [map concat].
    rewrite app_nil_r, IH. apply Permutation_app_comm. }
  cbn [app]. split; [done|]. split; [|done].
  by rewrite Hv, (heap_nodes_length h Hgood), getSize_elems.
Qed.

Lemma clear_releases_every_node_witness :
  let h := insert_all [(7, 70); (2, 20); (5, 50)] in
  clear_nodes_to_delete h ≡ₚ heap_nodes h /\
  Z.of_nat (length (clear_nodes_to_delete h)) = getSize h /\
  isEmpty (clear h) = true /\
  getSize (clear h) = 0.
Proof. apply clear_releases_every_node. repeat constructor. Defined.

(** *** The drain on any reachable heap *)

(** X10. On every reachable heap, [getWaitlistOrdered_destructive] ends
    within [getSize] + 1 loop tests, without an exception, and returns
    exactly the stored entries, each as often as it was stored, in
    non-decreasing priority order; the heap is empty afterwards. *)
Theorem drain_returns_all_entries (h : BinomialHeap.t) (fuel : nat) :
  reachable h -> getSize h < Z.of_nat fuel ->
  exists out,
    getWaitlistOrdered_destructive fuel h = Some (Returned out, []) /\
    out ≡ₚ heap_elems h /\
    StronglySorted prio_le out.
Proof.
  intros Hr Hfuel. rewrite getSize_elems in Hfuel.
  destruct (drain_loop_spec _ h fuel [] (reachable_inv h Hr) eq_refl)
    as (out & Hout & Hperm & Hsorted); [lia|].
  by exists out.
Qed.

Lemma drain_returns_all_entries_witness :
  exists out,
    getWaitlistOrdered_destructive 3
      (extractMin (insert_all [(7, 70); (2, 20); (5, 50)])).2
      = Some (Returned out, []) /\
    out ≡ₚ heap_elems (extractMin (insert_all [(7, 70); (2, 20); (5, 50)])).2 /\
    StronglySorted prio_le out.
Proof.
  apply drain_returns_all_entries; [|vm_compute; reflexivity].
  apply (reachable_extractMin (insert_all [(7, 70); (2, 20); (5, 50)]) 20);
    [repeat constructor|vm_compute; reflexivity].
Defined.

(** *** The degree table of consolidate *)

Lemma carry_loop_length table current d :
  length (carry_loop table current d).1.1 = length table.
Proof.
  funelim (carry_loop table current d); try rewrite <- Heqcall; try done.
  destruct (priority other <? priority current).
  - rewrite H. by rewrite length_insert.
  - rewrite H0. by rewrite length_insert.
Qed.

Lemma consolidate_loop_length roots : forall table,
  table_ok 0 table -> Forall good_root roots ->
  Z.of_nat (length (heap_elems table) + length (heap_elems roots))
    < 2 ^ Z.of_nat (length table) ->
  length (consolidate_loop table roots) = length table.
Proof.
  induction roots as [|current roots IH]; intros table Hok Hgood Hbound; [done|].
  apply Forall_cons in Hgood as [Hcur Hgood]. cbn [consolidate_loop].
  pose proof (carry_loop_spec table current (degree current) Hok Hcur eq_refl)
    as Hcarry.
  pose proof (carry_loop_length table current (degree current)) as Hlen.
  destruct (carry_loop table current (degree current))
    as [[table1 current1] d].
  cbv beta iota in Hcarry. cbn [fst] in Hlen.
  destruct Hcarry as (Hok1 & Hcur1 & Hdeg1 & Hfree & Hperm).
  rewrite heap_elems_cons, length_app in Hbound.
  pose proof (Permutation_length Hperm) as Hcount.
  rewrite !length_app, (good_root_size current1 Hcur1), Hdeg1 in Hcount.
  assert (d < length table1)%nat as Hd.
  { destruct (decide (d < length table1)%nat) as [|Hge]; [done|]. exfalso.
    assert (2 ^ Z.of_nat (length table) <= 2 ^ Z.of_nat d) as Hmono
      by (apply Z.pow_le_mono_r; lia).
    assert (Z.of_nat (2 ^ d) = 2 ^ Z.of_nat d) as Hpow
      by (by rewrite Nat2Z.inj_pow).
    lia. }
  assert (resize_for d table1 = table1) as ->.
  { unfold resize_for. destruct (length table1 <=? d)%nat eqn:Hle; [|done].
    apply Nat.leb_le in Hle. lia. }
  destruct (lookup_lt_is_Some_2 table1 d Hd) as [old Hold].
  assert (old = nullptr) as -> by by apply Hfree.
  pose proof (heap_elems_insert table1 d nullptr current1 Hold) as Hins.
  simpl in Hins. apply Permutation_length in Hins.
  rewrite length_app, (good_root_size current1 Hcur1), Hdeg1 in Hins.
  rewrite IH; [by rewrite length_insert| |done|].
  - apply table_ok_insert; [done|]. right. by split.
  - rewrite length_insert, Hlen. lia.
Qed.

Lemma max_degree_possible_bound roots :
  Z.of_nat (length (heap_elems roots))
    < 2 ^ Z.of_nat (max_degree_possible roots).
Proof.
  unfold max_degree_possible. rewrite getSize_elems.
  set (n := Z.of_nat (length (heap_elems roots))).
  assert (0 <= n) as Hn by lia.
  destruct (0 <? n) eqn:Hpos.
  - apply Z.ltb_lt in Hpos. pose proof (Z.log2_spec n Hpos) as [_ Hlog].
    pose proof (Z.log2_nonneg n) as Hnn.
    assert (2 ^ Z.succ (Z.log2 n) <=
            2 ^ Z.of_nat (Z.to_nat (if Z.log2 n + 2 <? 5 then 5 else Z.log2 n + 2)))
      as Hmono.
    { apply Z.pow_le_mono_r; [lia|]. destruct (Z.log2 n + 2 <? 5) eqn:H5.
      - apply Z.ltb_lt in H5. lia.
      - lia. }
    lia.
  - apply Z.ltb_ge in Hpos. assert (n = 0) as -> by lia.
    apply Z.pow_pos_nonneg; lia.
Qed.

(** X11. When [consolidate] runs on a list of well-formed binomial trees,
    as in both of its callers, the degree table sized from [getSize] is
    never too short: the [resize] branch is not taken and the table keeps
    its initial size to the end. *)
Theorem degree_table_never_resized (roots : BinomialHeap.t) :
  Forall good_root roots ->
  length (consolidate_loop (replicate (max_degree_possible roots) nullptr) roots)
  = max_degree_possible roots.
Proof.
  intros Hgood.
  rewrite consolidate_loop_length; [by rewrite length_replicate| |done|].
  - apply table_ok_replicate.
  - rewrite heap_elems_replicate_null, length_replicate. cbn [length plus].
    apply max_degree_possible_bound.
Qed.

Lemma degree_table_never_resized_witness :
  let roots :=
    mergeRootLists (insert_all [(7, 70); (2, 20); (5, 50)]) [new_node 4 40] in
  length (consolidate_loop (replicate (max_degree_possible roots) nullptr) roots)
  = max_degree_possible roots.
Proof.
  apply degree_table_never_resized.
  let r := eval vm_compute in
    (mergeRootLists (insert_all [(7, 70); (2, 20); (5, 50)]) [new_node 4 40]) in
  change (Forall good_root r).
  repeat constructor; simpl; lia.
Defined.

(** X24. At the end of [consolidate] the root list rebuilt from the degree
    table is already in strictly ascending degree order, so the final
    [roots.sort] leaves it as it is. *)
Theorem consolidate_sort_changes_nothing (table_size : nat) (roots : BinomialHeap.t) :
  Forall good_root roots ->
  let rebuilt :=
    rebuild_roots (consolidate_loop (replicate table_size nullptr) roots) in
  StronglySorted lt (map degree rebuilt) /\ sort_by_degree rebuilt = rebuilt.
Proof.
  intros Hgood rebuilt.
  destruct (consolidate_loop_spec roots (replicate table_size nullptr))
    as [Hok _]; [apply table_ok_replicate|done|].
  destruct (rebuild_roots_good _ 0%nat Hok) as (_ & _ & Hs).
  split; [done|]. by apply sort_by_degree_sorted.
Qed.

Lemma consolidate_sort_changes_nothing_witness :
  let roots :=
    mergeRootLists (insert_all [(7, 70); (2, 20); (5, 50)]) [new_node 4 40] in
  let rebuilt := rebuild_roots (consolidate_loop (replicate 5 nullptr) roots) in
  StronglySorted lt (map degree rebuilt) /\ sort_by_degree rebuilt = rebuilt.
Proof.
  apply consolidate_sort_changes_nothing.
  let r := eval vm_compute in
    (mergeRootLists (insert_all [(7, 70); (2, 20); (5, 50)]) [new_node 4 40]) in
  change (Forall good_root r).
  repeat constructor; simpl; lia.
Defined.

End HeapExtra.

(** ** Further properties of the flight ledger *)

Module FlightExtra.
Import Flight FlightInv.
Import HeapInv HeapProofs FlightProofs.

(** *** addPassenger, case by case *)

(** X12. For a passenger who is not confirmed on a reachable flight,
    [addPassenger] confirms (returns [true], appends the id, leaves the
    waitlist alone) exactly when fewer passengers are confirmed than the
    capacity; otherwise it returns [false], leaves the confirmed list alone
    and adds the entry [(priority, passengerId)] to the waitlist. *)
Theorem addPassenger_confirms_or_waitlists (f : Flight.t)
    (p : PassengerIdType) (prio : PriorityType) :
  reachable_flight f -> p ∉ confirmedPassengers f ->
  (getBookedCount f < getCapacity f ->
   addPassenger p prio f = (true, set_confirmed (confirmedPassengers f ++ [p]) f)) /\
  (getCapacity f <= getBookedCount f ->
   exists f',
     addPassenger p prio f = (false, f') /\
     confirmedPassengers f' = confirmedPassengers f /\
     heap_elems (waitlistHeap f') ≡ₚ (prio, p) :: heap_elems (waitlistHeap f) /\
     getWaitlistCount f' = getWaitlistCount f + 1).
Proof.
  intros Hr Hnotin. destruct (reachable_flight_inv f Hr) as (Hcap & _ & Hheap).
  unfold getBookedCount, getCapacity, getWaitlistCount, addPassenger.
  rewrite std_find_end, bool_decide_eq_true_2 by done.
  rewrite static_cast_size_t_nonneg by done.
  destruct (insert_spec prio p (waitlistHeap f) (proj1 Hheap)) as [_ Hperm].
  split; intros Hcount.
  - apply Z.ltb_lt in Hcount. by rewrite Hcount.
  - apply Z.ltb_ge in Hcount. rewrite Hcount. eexists. split; [done|].
    cbn [set_waitlist confirmedPassengers waitlistHeap].
    repeat split; [done|]. rewrite !getSize_elems, Hperm. simpl. lia.
Qed.

Lemma addPassenger_confirms_or_waitlists_witness :
  (getBookedCount full_flight < getCapacity full_flight ->
   addPassenger 5 14 full_flight
   = (true, set_confirmed (confirmedPassengers full_flight ++ [5]) full_flight)) /\
  (getCapacity full_flight <= getBookedCount full_flight ->
   exists f',
     addPassenger 5 14 full_flight = (false, f') /\
     confirmedPassengers f' = confirmedPassengers full_flight /\
     heap_elems (waitlistHeap f')
       ≡ₚ (14, 5) :: heap_elems (waitlistHeap full_flight) /\
     getWaitlistCount f' = getWaitlistCount full_flight + 1).
Proof.
  apply addPassenger_confirms_or_waitlists.
  - repeat apply reachable_addPassenger. apply reachable_Flight.
    vm_compute. split; discriminate.
  - vm_compute. intros Hin.
    repeat (apply elem_of_cons in Hin as [Heq|Hin]; [discriminate|]).
    by apply elem_of_nil in Hin.
Defined.

(** *** No free seat while somebody waits *)

Lemma heap_not_empty_elems (h : BinomialHeap.t) e l :
  heap_elems h ≡ₚ e :: l -> BinomialHeap.isEmpty h = false.
Proof.
  destruct h; [|done]. intros Hp. by apply Permutation_nil_l in Hp.
Qed.

Lemma addPassenger_seats_used p prio f :
  flight_inv f -> seats_used f -> seats_used (addPassenger p prio f).2.
Proof.
  intros (Hcap & Hlen & Hheap) Hused. unfold addPassenger.
  destruct (_ =? _)%nat; [|done].
  rewrite static_cast_size_t_nonneg by done.
  destruct (_ <? _) eqn:Hlt; unfold seats_used, getBookedCount, getCapacity in *;
    cbn [snd set_confirmed set_waitlist confirmedPassengers waitlistHeap capacity].
  - apply Z.ltb_lt in Hlt. intros Hne. specialize (Hused Hne). lia.
  - apply Z.ltb_ge in Hlt. intros _. lia.
Qed.

Lemma cancelBooking_seats_used p f :
  flight_inv f -> seats_used f -> seats_used (cancelBooking p f).2.
Proof.
  intros (Hcap & Hlen & Hheap) Hused.
  destruct (decide (p ∈ confirmedPassengers f)) as [Hin|Hnotin];
    [|by rewrite cancelBooking_absent].
  destruct (cancelBooking_found f p Hheap Hin)
    as (l1 & l2 & f' & Hconf & _ & -> & Hcap' & Hcase).
  unfold seats_used, getBookedCount, getCapacity in *. cbn [snd].
  rewrite Hcap'.
  destruct Hcase as [(Hemp & _ & ->)|(Hne & prio & q & _ & _ & _ & _ & ->)].
  - intros Hne. congruence.
  - intros _. specialize (Hused Hne). rewrite Hconf in Hused.
    rewrite !length_app in *. simpl in *. lia.
Qed.

(** X13. On a reachable flight no seat is free while somebody waits: when
    the waitlist heap is not empty, the number of confirmed passengers is
    the capacity. *)
Theorem no_free_seat_while_waiting (f : Flight.t) :
  reachable_flight f ->
  BinomialHeap.isEmpty (waitlistHeap f) = false ->
  getBookedCount f = getCapacity f.
Proof.
  intros Hr. change (seats_used f).
  induction Hr as [id orig dest cap Hcap|f p prio Hr IH|f p Hr IH].
  - intros Hne. discriminate.
  - apply addPassenger_seats_used; [by apply reachable_flight_inv|done].
  - apply cancelBooking_seats_used; [by apply reachable_flight_inv|done].
Qed.

Lemma no_free_seat_while_waiting_witness :
  getBookedCount (cancelBooking 1 full_flight).2
  = getCapacity (cancelBooking 1 full_flight).2.
Proof.
  apply no_free_seat_while_waiting; [|vm_compute; reflexivity].
  apply reachable_cancelBooking.
  repeat apply reachable_addPassenger. apply reachable_Flight.
  vm_compute. split; discriminate.
Defined.

(** *** A flight without seats *)

(** X14. On a flight constructed with capacity zero or less, the confirmed
    list stays empty whatever is called: every [addPassenger] returns
    [false] (waitlisted) and every [cancelBooking] returns [false] and
    changes nothing. *)
Theorem zero_capacity_flight (id orig dest : string) (cap : Z) (f : Flight.t) :
  cap <= 0 ->
  reachable_from (Flight id orig dest cap) f ->
  confirmedPassengers f = [] /\
  (forall p prio, (addPassenger p prio f).1 = false) /\
  (forall p, cancelBooking p f = (false, f)).
Proof.
  intros Hcap Hr.
  assert (confirmedPassengers f = [] /\ capacity f = 0) as [Hconf Hzero].
  { induction Hr as [|f p prio _ [IHc IHz]|f p _ [IHc IHz]].
    - split; [done|]. simpl. destruct (cap >=? 0) eqn:Hge; lia.
    - unfold addPassenger. rewrite IHc, IHz. simpl. by rewrite IHc.
    - unfold cancelBooking. by rewrite IHc. }
  split; [done|]. split.
  - intros p prio. unfold addPassenger. by rewrite Hconf, Hzero.
  - intros p. unfold cancelBooking. by rewrite Hconf.
Qed.

Lemma zero_capacity_flight_witness :
  let f := (addPassenger 2 11 (addPassenger 1 10 (Flight "ZZ000" "A" "B" (-3))).2).2 in
  confirmedPassengers f = [] /\
  (forall p prio, (addPassenger p prio f).1 = false) /\
  (forall p, cancelBooking p f = (false, f)).
Proof.
  apply (zero_capacity_flight "ZZ000" "A" "B" (-3)); [lia|].
  repeat apply from_addPassenger. apply from_start.
Defined.

(** *** Counting bookings *)

(** X15. On a reachable flight, [addPassenger] for a passenger who is not
    confirmed raises the number of bookings (confirmed plus waitlisted) by
    exactly one, and [cancelBooking] of a confirmed passenger lowers it by
    exactly one, whether or not somebody is promoted. *)
Theorem booking_count_changes (f : Flight.t) (p : PassengerIdType) :
  reachable_flight f ->
  (p ∉ confirmedPassengers f ->
   forall prio,
     total_bookings (addPassenger p prio f).2 = total_bookings f + 1) /\
  (p ∈ confirmedPassengers f ->
   total_bookings (cancelBooking p f).2 = total_bookings f - 1).
Proof.
  intros Hr. destruct (reachable_flight_inv f Hr) as (Hcap & _ & Hheap).
  unfold total_bookings, getBookedCount, getWaitlistCount. split.
  - intros Hnotin prio. unfold addPassenger.
    rewrite std_find_end, bool_decide_eq_true_2 by done.
    destruct (_ <? _);
      cbn [snd set_confirmed set_waitlist confirmedPassengers waitlistHeap].
    + rewrite length_app. simpl. lia.
    + destruct (insert_spec prio p (waitlistHeap f) (proj1 Hheap)) as [_ Hperm].
      rewrite !getSize_elems, Hperm. simpl. lia.
  - intros Hin.
    destruct (cancelBooking_found f p Hheap Hin)
      as (l1 & l2 & f' & Hconf & _ & -> & _ & Hcase).
    cbn [snd]. rewrite Hconf.
    destruct Hcase as [(_ & -> & ->)|(_ & prio & q & _ & _ & Hperm & _ & ->)].
    + rewrite !length_app. simpl. lia.
    + rewrite !getSize_elems, Hperm, !length_app. simpl. lia.
Qed.

Lemma booking_count_changes_witness :
  (5 ∉ confirmedPassengers full_flight ->
   forall prio,
     total_bookings (addPassenger 5 prio full_flight).2
     = total_bookings full_flight + 1) /\
  (5 ∈ confirmedPassengers full_flight ->
   total_bookings (cancelBooking 5 full_flight).2 = total_bookings full_flight - 1).
Proof.
  apply booking_count_changes.
  repeat apply reachable_addPassenger. apply reachable_Flight.
  vm_compute. split; discriminate.
Defined.

(** *** What the calls never touch *)

Lemma addPassenger_fields p prio f :
  flightId (addPassenger p prio f).2 = flightId f /\
  origin (addPassenger p prio f).2 = origin f /\
  destination (addPassenger p prio f).2 = destination f /\
  capacity (addPassenger p prio f).2 = capacity f.
Proof.
  unfold addPassenger. destruct (_ =? _)%nat; [|done]. by destruct (_ <? _).
Qed.

Lemma cancelBooking_fields p f :
  flightId (cancelBooking p f).2 = flightId f /\
  origin (cancelBooking p f).2 = origin f /\
  destination (cancelBooking p f).2 = destination f /\
  capacity (cancelBooking p f).2 = capacity f.
Proof.
  unfold cancelBooking. destruct (_ =? _)%nat; [done|].
  cbn [set_confirmed waitlistHeap].
  destruct (negb _); [|done].
  by destruct (BinomialHeap.extractMin _) as [[?|?] ?].
Qed.

(** X16. [addPassenger] and [cancelBooking] never change the flight id, the
    origin, the destination or the capacity of a flight. *)
Theorem flight_identity_preserved (f0 f : Flight.t) :
  reachable_from f0 f ->
  flightId f = flightId f0 /\ origin f = origin f0 /\
  destination f = destination f0 /\ capacity f = capacity f0.
Proof.
  induction 1 as [|f p prio _ IH|f p _ IH]; [done| |].
  - destruct (addPassenger_fields p prio f) as (-> & -> & -> & ->). exact IH.
  - destruct (cancelBooking_fields p f) as (-> & -> & -> & ->). exact IH.
Qed.

Lemma flight_identity_preserved_witness :
  flightId full_flight = "AI101" /\ origin full_flight = "DEL" /\
  destination full_flight = "BOM" /\ capacity full_flight = 2.
Proof.
  apply (flight_identity_preserved (Flight "AI101" "DEL" "BOM" 2)).
  repeat apply from_addPassenger. apply from_start.
Defined.

(** *** The passenger shown as next is the one promoted *)

(** X17. On a reachable flight with a non-empty waitlist, the passenger and
    priority that [displayStatus] reads with [findMinPassengerId] and
    [findMinPriority] are those of the entry that the next successful
    [cancelBooking] takes off the waitlist and appends to the confirmed
    list. *)
Theorem next_in_line_is_promoted (f : Flight.t) (p : PassengerIdType) :
  reachable_flight f ->
  p ∈ confirmedPassengers f ->
  BinomialHeap.isEmpty (waitlistHeap f) = false ->
  exists prio q l,
    BinomialHeap.findMinPassengerId (waitlistHeap f) = Returned q /\
    BinomialHeap.findMinPriority (waitlistHeap f) = Returned prio /\
    confirmedPassengers (cancelBooking p f).2 = l ++ [q] /\
    heap_elems (waitlistHeap f)
      ≡ₚ (prio, q) :: heap_elems (waitlistHeap (cancelBooking p f).2).
Proof.
  intros Hr Hin Hne. destruct (reachable_flight_inv f Hr) as (_ & _ & Hheap).
  destruct (extractMin_spec _ (proj1 Hheap) Hne)
    as (prio & q & h' & Hex & Hp & Hq & _ & Hperm & _).
  destruct (cancelBooking_found f p Hheap Hin)
    as (l1 & l2 & f' & _ & _ & -> & _ & Hcase).
  destruct Hcase as [(Hemp & _)|(_ & prio' & q' & Hex' & _ & _ & _ & Hconf)];
    [congruence|].
  rewrite Hex in Hex'. injection Hex' as <- ->.
  exists prio, q, (l1 ++ l2). cbn [snd]. repeat split; try done.
  by rewrite Hconf, app_assoc.
Qed.

Lemma next_in_line_is_promoted_witness :
  exists prio q l,
    BinomialHeap.findMinPassengerId (waitlistHeap full_flight) = Returned q /\
    BinomialHeap.findMinPriority (waitlistHeap full_flight) = Returned prio /\
    confirmedPassengers (cancelBooking 2 full_flight).2 = l ++ [q] /\
    heap_elems (waitlistHeap full_flight)
      ≡ₚ (prio, q) :: heap_elems (waitlistHeap (cancelBooking 2 full_flight).2).
Proof.
  apply next_in_line_is_promoted.
  - repeat apply reachable_addPassenger. apply reachable_Flight.
    vm_compute. split; discriminate.
  - vm_compute. apply list_elem_of_further, list_elem_of_here.
  - vm_compute. reflexivity.
Defined.

(** *** How one call changes the bookings of a flight *)

Lemma addPassenger_effect p prio f :
  flight_inv f ->
  (exists extra, (extra = [] \/ extra = [p]) /\
     confirmedPassengers (addPassenger p prio f).2
       ++ waitlist_ids (addPassenger p prio f).2
     ≡ₚ extra ++ confirmedPassengers f ++ waitlist_ids f) /\
  (heap_elems (waitlistHeap (addPassenger p prio f).2)
     = heap_elems (waitlistHeap f) \/
   heap_elems (waitlistHeap (addPassenger p prio f).2)
     ≡ₚ (prio, p) :: heap_elems (waitlistHeap f)).
Proof.
  intros (_ & _ & Hheap). unfold addPassenger.
  destruct (_ =? _)%nat; [|split; [by exists []; split; [left|]|by left]].
  destruct (_ <? _); cbn [snd].
  - split; [|by left]. exists [p]. split; [by right|].
    unfold waitlist_ids. cbn [set_confirmed confirmedPassengers waitlistHeap].
    rewrite <- app_assoc. cbn [app]. by rewrite <- Permutation_middle.
  - destruct (insert_spec prio p (waitlistHeap f) (proj1 Hheap)) as [_ Hperm].
    split; [|by right]. exists [p]. split; [by right|].
    rewrite (waitlist_ids_perm (set_waitlist _ f) _ Hperm).
    cbn [map snd set_waitlist confirmedPassengers app].
    by rewrite <- Permutation_middle.
Qed.

Lemma cancelBooking_effect p f :
  flight_inv f ->
  (exists gone,
     confirmedPassengers f ++ waitlist_ids f
     ≡ₚ gone ++ confirmedPassengers (cancelBooking p f).2
          ++ waitlist_ids (cancelBooking p f).2) /\
  (exists gone,
     heap_elems (waitlistHeap f)
     ≡ₚ gone ++ heap_elems (waitlistHeap (cancelBooking p f).2)).
Proof.
  intros (_ & _ & Hheap).
  destruct (decide (p ∈ confirmedPassengers f)) as [Hin|Hnotin];
    [|rewrite cancelBooking_absent by done; split; by exists []].
  destruct (cancelBooking_found f p Hheap Hin)
    as (l1 & l2 & f' & Hconf & _ & -> & _ & Hcase).
  cbn [snd]. rewrite Hconf.
  destruct Hcase as [(_ & -> & Hw)|(_ & prio & q & _ & _ & Hperm & _ & ->)].
  - split; [|exists []; by rewrite Hw].
    exists [p]. unfold waitlist_ids. rewrite Hw, <- !app_assoc. cbn [app].
    by rewrite <- Permutation_middle.
  - split; [|by exists [(prio, q)]].
    exists [p]. rewrite (waitlist_ids_perm f _ Hperm). cbn [map snd app].
    rewrite <- !app_assoc. cbn [app]. by rewrite <- Permutation_middle.
Qed.

End FlightExtra.

(** ** Properties of the booking system *)

Module BookingProofs.
Import BookingSystem BookingInv.
Import HeapInv HeapProofs FlightInv FlightProofs FlightExtra.

(** *** emplace *)

Lemma emplace_lookup_old `{Countable K} {V} (k k' : K) (v v' : V) (m : gmap K V) :
  m !! k' = Some v' -> emplace k v m !! k' = Some v'.
Proof.
  intros Hold. unfold emplace. destruct (m !! k) eqn:Hk; [done|].
  rewrite lookup_insert_ne; [done|]. intros ->. congruence.
Qed.

Lemma emplace_lookup_Some `{Countable K} {V} (k k' : K) (v v' : V) (m : gmap K V) :
  emplace k v m !! k' = Some v' ->
  m !! k' = Some v' \/ (m !! k = None /\ k' = k /\ v' = v).
Proof.
  unfold emplace. destruct (m !! k) eqn:Hk; [by left|].
  destruct (decide (k = k')) as [<-|Hne].
  - rewrite lookup_insert_eq. intros [= <-]. by right.
  - rewrite lookup_insert_ne by done. by left.
Qed.

(** *** Each primitive keeps the invariant *)

Lemma flight_ok_weaken s s' fid f :
  (forall x, is_Some (passengers s !! x) -> is_Some (passengers s' !! x)) ->
  nextBookingPriority s <= nextBookingPriority s' ->
  flight_ok s fid f -> flight_ok s' fid f.
Proof.
  intros Hreg Hprio (Hid & Hreach & Hbooked & Hbound & Hnodup).
  repeat split; try done.
  - eapply Forall_impl; [exact Hbooked|]. exact Hreg.
  - eapply Forall_impl; [exact Hbound|]. simpl. lia.
Qed.

Lemma register_inv name s : system_inv s -> system_inv (register name s).
Proof.
  intros (Hreg & Hnext & Hprio & Hfl).
  split; [|split; [simpl; lia|split; [done|]]].
  - intros k p Hk. cbn [register passengers nextPassengerId] in *.
    apply emplace_lookup_Some in Hk as [Hk|(_ & -> & ->)].
    + destruct (Hreg k p Hk). split; [done|lia].
    + simpl. split; [done|lia].
  - intros fid f Hf. apply (flight_ok_weaken s); [|simpl; lia|by apply Hfl].
    intros x [p Hp]. exists p. by apply emplace_lookup_old.
Qed.

Lemma emplace_flight_inv id orig dest cap s :
  0 <= cap <= INT_MAX ->
  system_inv s -> system_inv (emplace_flight id orig dest cap s).
Proof.
  intros Hcap (Hreg & Hnext & Hprio & Hfl).
  split; [done|split; [done|split; [done|]]].
  intros fid f Hf. cbn [emplace_flight flights] in Hf.
  apply emplace_lookup_Some in Hf as [Hf|(_ & -> & ->)].
  - apply (flight_ok_weaken s); [done|simpl; lia|by apply Hfl].
  - split; [done|]. split.
    + apply reachable_Flight. unfold INT_MIN, INT_MAX in *. lia.
    + repeat split; constructor.
Qed.

Lemma bookTicket_inv pid fid s :
  is_Some (passengers s !! pid) ->
  system_inv s -> system_inv (bookTicket pid fid s).
Proof.
  intros Hpid (Hreg & Hnext & Hprio & Hfl). unfold bookTicket.
  destruct (flights s !! fid) as [f|] eqn:Hf; [|done].
  split; [done|split; [done|split; [simpl; lia|]]].
  intros fid' f' Hf'. cbn [flights] in Hf'.
  destruct (decide (fid = fid')) as [<-|Hne].
  - rewrite lookup_insert_eq in Hf'. injection Hf' as <-.
    destruct (Hfl fid f Hf) as (Hid & Hreach & Hbooked & Hbound & Hnodup).
    pose proof (reachable_flight_inv f Hreach) as Hinv.
    destruct (addPassenger_fields pid (nextBookingPriority s) f) as (Hid' & _).
    destruct (addPassenger_effect pid (nextBookingPriority s) f Hinv)
      as [(extra & Hextra & Hids) Helems].
    split; [congruence|]. split; [by constructor|].
    cbn [passengers nextBookingPriority]. split; [|split].
    + rewrite Hids. apply Forall_app. split; [|done].
      destruct Hextra as [->| ->]; repeat constructor. done.
    + destruct Helems as [->|Hperm].
      * eapply Forall_impl; [exact Hbound|]. simpl. lia.
      * rewrite Hperm. constructor; [simpl; lia|].
        eapply Forall_impl; [exact Hbound|]. simpl. lia.
    + destruct Helems as [->|Hperm]; [done|].
      rewrite (Permutation_map fst Hperm). cbn [map fst].
      apply NoDup_cons. split; [|done].
      intros Hin. apply list_elem_of_In, in_map_iff in Hin as (e & Heq & Hin).
      apply list_elem_of_In in Hin.
      rewrite Forall_forall in Hbound. specialize (Hbound e Hin).
      simpl in Hbound. unfold PriorityType in *. lia.
  - rewrite lookup_insert_ne in Hf' by done.
    apply (flight_ok_weaken s); [done|simpl; lia|by apply Hfl].
Qed.

Lemma Forall_submultiset {A} (P : A -> Prop) (big gone small : list A) :
  big ≡ₚ gone ++ small -> Forall P big -> Forall P small.
Proof. intros ->. rewrite Forall_app. tauto. Qed.

Lemma cancelBooking_inv_system pid fid s :
  system_inv s -> system_inv (BookingSystem.cancelBooking pid fid s).
Proof.
  intros (Hreg & Hnext & Hprio & Hfl). unfold BookingSystem.cancelBooking.
  destruct (flights s !! fid) as [f|] eqn:Hf; [|done].
  split; [done|split; [done|split; [done|]]].
  intros fid' f' Hf'. cbn [flights] in Hf'.
  destruct (decide (fid = fid')) as [<-|Hne].
  - rewrite lookup_insert_eq in Hf'. injection Hf' as <-.
    destruct (Hfl fid f Hf) as (Hid & Hreach & Hbooked & Hbound & Hnodup).
    pose proof (reachable_flight_inv f Hreach) as Hinv.
    destruct (cancelBooking_fields pid f) as (Hid' & _).
    destruct (cancelBooking_effect pid f Hinv)
      as [(gone & Hids) (gone' & Helems)].
    split; [congruence|]. split; [by constructor|].
    cbn [passengers nextBookingPriority]. split; [|split].
    + by eapply Forall_submultiset.
    + by eapply Forall_submultiset.
    + rewrite (Permutation_map fst Helems), map_app in Hnodup.
      by apply NoDup_app in Hnodup as (_ & _ & ?).
  - rewrite lookup_insert_ne in Hf' by done. by apply Hfl.
Qed.

Lemma addNewFlight_inv id orig dest cap s :
  0 <= cap <= INT_MAX ->
  system_inv s -> system_inv (addNewFlight id orig dest cap s).
Proof.
  intros Hcap Hinv. unfold addNewFlight.
  destruct (flights s !! id); [done|]. by apply emplace_flight_inv.
Qed.

Lemma step_inv a s : accepted a s -> system_inv s -> system_inv (step a s).
Proof.
  destruct a; cbn [accepted step]; intros Hacc Hinv; try done.
  - unfold addNewPassenger. destruct (decide _); [done|]. by apply register_inv.
  - by apply bookTicket_inv.
  - by apply cancelBooking_inv_system.
  - by apply addNewFlight_inv.
Qed.

Lemma empty_system_inv :
  system_inv {| flights := ∅; passengers := ∅;
                nextPassengerId := 1; nextBookingPriority := 1 |}.
Proof.
  split; [|split; [done|split; [done|]]].
  - intros k p Hk. cbn [passengers] in Hk. by rewrite lookup_empty in Hk.
  - intros fid f Hf. cbn [flights] in Hf. by rewrite lookup_empty in Hf.
Qed.

Lemma BookingSystem_inv : system_inv BookingSystem.
Proof.
  unfold BookingSystem, loadSampleData, prebook. cbv zeta.
  repeat (apply bookTicket_inv; [vm_compute; by eexists|]).
  repeat (apply emplace_flight_inv; [unfold INT_MAX; lia|]).
  repeat apply register_inv.
  apply empty_system_inv.
Qed.

Lemma reachable_system_inv s : reachable_system s -> system_inv s.
Proof.
  induction 1 as [|a s _ IH Hacc]; [apply BookingSystem_inv|].
  by apply step_inv.
Qed.

(** *** The passenger registry *)





Lemma step_keeps_passenger a s k p :
  passengers s !! k = Some p -> passengers (step a s) !! k = Some p.
Proof.
  intros Hk. destruct a; cbn [step]; try done.
  - unfold addNewPassenger. destruct (decide _); [done|].
    by apply emplace_lookup_old.
  - unfold bookTicket. by destruct (flights s !! _).
  - unfold BookingSystem.cancelBooking. by destruct (flights s !! _).
  - unfold addNewFlight. by destruct (flights s !! _).
Qed.

Lemma step_keeps_flight a s fid :
  is_Some (flights s !! fid) -> is_Some (flights (step a s) !! fid).
Proof.
  intros [f Hf]. destruct a as [| | |pid fid'|pid fid'| | |]; cbn [step];
    try by exists f.
  - unfold addNewPassenger. destruct (decide _); by exists f.
  - unfold bookTicket. destruct (flights s !! fid') eqn:Hf'; [|by exists f].
    cbn [flights]. destruct (decide (fid' = fid)) as [->|Hne].
    + rewrite lookup_insert_eq. by eexists.
    + rewrite lookup_insert_ne by done. by exists f.
  - unfold BookingSystem.cancelBooking.
    destruct (flights s !! fid') eqn:Hf'; [|by exists f].
    cbn [flights]. destruct (decide (fid' = fid)) as [->|Hne].
    + rewrite lookup_insert_eq. by eexists.
    + rewrite lookup_insert_ne by done. by exists f.
  - unfold addNewFlight. destruct (flights s !! id) eqn:Hid; [by exists f|].
    exists f. by apply emplace_lookup_old.
Qed.

(** X20. Nothing the menu loop does removes or alters a registered
    passenger or removes a flight: a record found under an id before [run]
    is found unchanged after it, and a flight id that was known stays
    known. *)
Theorem run_keeps_registrations (actions : list action) (s : BookingSystem.t) :
  (forall k p, passengers s !! k = Some p ->
     passengers (BookingSystem.run actions s) !! k = Some p) /\
  (forall fid, is_Some (flights s !! fid) ->
     is_Some (flights (BookingSystem.run actions s) !! fid)).
Proof.
  revert s. induction actions as [|a actions IH]; intros s; [done|].
  destruct (IH (step a s)) as [IHp IHf].
  split.
  - intros k p Hk. destruct a; cbn [BookingSystem.run]; try done;
      apply IHp; by apply step_keeps_passenger.
  - intros fid Hf. destruct a; cbn [BookingSystem.run]; try done;
      apply IHf; by apply step_keeps_flight.
Qed.

(** *** The flights of the system *)

(** X21. In every reachable state of the system each flight is stored under
    its own flight id and is a state the flight's constructor,
    [addPassenger] and [cancelBooking] can produce, so it never has more
    confirmed passengers than seats. *)
Theorem flights_keyed_and_within_capacity (s : BookingSystem.t) :
  reachable_system s ->
  forall fid f, flights s !! fid = Some f ->
    Flight.flightId f = fid /\
    reachable_flight f /\
    Flight.getBookedCount f <= Flight.getCapacity f.
Proof.
  intros Hr fid f Hf. destruct (reachable_system_inv s Hr) as (_ & _ & _ & Hfl).
  destruct (Hfl fid f Hf) as (Hid & Hreach & _).
  repeat split; [done|done|].
  by destruct (reachable_flight_inv f Hreach) as (_ & ? & _).
Qed.

Lemma flights_keyed_and_within_capacity_witness :
  exists f,
    flights (step (BookTicket 6 "AI101") BookingSystem) !! "AI101" = Some f /\
    Flight.flightId f = "AI101" /\
    reachable_flight f /\
    Flight.getBookedCount f <= Flight.getCapacity f.
Proof.
  eexists. split; [vm_compute; reflexivity|].
  apply (flights_keyed_and_within_capacity
           (step (BookTicket 6 "AI101") BookingSystem)).
  - apply reachable_step; [apply reachable_BookingSystem|].
    vm_compute. by eexists.
  - vm_compute. reflexivity.
Defined.

(** X22. In every reachable state of the system every passenger id that is
    confirmed or waitlisted on a flight belongs to a registered
    passenger. *)
Theorem booked_passengers_registered (s : BookingSystem.t) :
  reachable_system s ->
  forall fid f, flights s !! fid = Some f ->
    Forall (fun x => is_Some (passengers s !! x))
           (Flight.confirmedPassengers f ++ waitlist_ids f).
Proof.
  intros Hr fid f Hf. destruct (reachable_system_inv s Hr) as (_ & _ & _ & Hfl).
  by destruct (Hfl fid f Hf) as (_ & _ & ? & _).
Qed.

Lemma booked_passengers_registered_witness :
  exists f,
    flights (step (CancelBooking 1 "AI101") BookingSystem) !! "AI101" = Some f /\
    Forall (fun x =>
              is_Some (passengers (step (CancelBooking 1 "AI101") BookingSystem) !! x))
           (Flight.confirmedPassengers f ++ waitlist_ids f).
Proof.
  eexists. split; [vm_compute; reflexivity|].
  refine (booked_passengers_registered
            (step (CancelBooking 1 "AI101") BookingSystem) _ "AI101" _ _).
  - apply reachable_step; [apply reachable_BookingSystem|].
    vm_compute. by eexists.
  - vm_compute. reflexivity.
Defined.



End BookingProofs.
